(** * Best-response dynamics for two-player matrix games

    A shallow embedding of [GameTheoryalgorithms.py]: [best_response] and
    [calculate_nash_equilibrium], together with the NumPy operations they
    call ([@], [np.argmax], [np.ones], [np.zeros], item assignment and
    [np.allclose]).

    The development has two layers.  The value layer embeds the two functions
    with explicit state passing (the two strategy arrays are the loop state)
    and an error monad for the exceptions NumPy raises.  The object layer
    ([Module Heap]) runs the same statements on a store of array objects, to
    state what the functions read and write. *)

From Stdlib Require Import QArith Qabs.
From Stdlib Require Import Floats.PrimFloat Uint63.
From Stdlib Require Floats.FloatAxioms String.
From stdpp Require Import base list.

Set Warnings "-inexact-float".
Set Default Proof Using "Type".

(** ** Numbers

    Array elements are taken from a type with the operations the program
    uses.  [Float64] is NumPy's [float64] (IEEE 754 binary64); [Rational] is
    the exact arithmetic of the data model. *)

Class Scalar (R : Type) := {
  fzero : R;
  fone : R;
  fadd : R → R → R;
  fsub : R → R → R;
  fmul : R → R → R;
  fdiv : R → R → R;
  fabs : R → R;
  (** conversion of an array length, as in [np.ones(n) / n] *)
  of_count : nat → R;
  (** [x <= y] *)
  fle : R → R → bool;
  isnan : R → bool;
  (** the default [rtol] of [np.allclose] *)
  rtol : R;
}.

#[export] Instance Float64 : Scalar float := {
  fzero := 0%float;
  fone := 1%float;
  fadd := PrimFloat.add;
  fsub := PrimFloat.sub;
  fmul := PrimFloat.mul;
  fdiv := PrimFloat.div;
  fabs := PrimFloat.abs;
  of_count n := PrimFloat.of_uint63 (Uint63.of_Z (Z.of_nat n));
  fle := PrimFloat.leb;
  isnan := PrimFloat.is_nan;
  rtol := 1e-5%float;
}.

#[export] Instance Rational : Scalar Q := {
  fzero := 0%Q;
  fone := 1%Q;
  fadd := Qplus;
  fsub := Qminus;
  fmul := Qmult;
  fdiv := Qdiv;
  fabs := Qabs;
  of_count n := inject_Z (Z.of_nat n);
  fle := Qle_bool;
  isnan _ := false;
  rtol := (1 # 100000)%Q;
}.

(** ** Exceptions and the error monad *)

Inductive exception :=
  | DimensionMismatch   (* ValueError of [@]: core dimensions differ *)
  | EmptyArgmax         (* ValueError of [np.argmax] on an empty array *)
  | IndexOutOfBounds    (* IndexError of item assignment *)
  | BroadcastMismatch   (* ValueError: operands could not be broadcast *)
  | NotAnArray.         (* the object layer only: a reference of the wrong kind *)

Inductive result (A : Type) :=
  | Ok (a : A)
  | Raise (e : exception).
Arguments Ok {A} a.
Arguments Raise {A} e.

#[export] Instance result_ret : MRet result := λ A a, Ok a.
#[export] Instance result_bind : MBind result := λ A B f r,
  match r with Ok a => f a | Raise e => Raise e end.
#[export] Instance result_fmap : FMap result := λ A B f r,
  match r with Ok a => Ok (f a) | Raise e => Raise e end.

(** ** Arrays

    A one-dimensional array is the list of its elements.  A two-dimensional
    array keeps its column count beside its rows, as [ndarray.shape] does, so
    that an array without rows still has a shape [(0, n)]. *)

Record matrix (R : Type) := Matrix {
  rows : list (list R);
  ncols : nat;
}.
Arguments Matrix {R} rows ncols.
Arguments rows {R} m.
Arguments ncols {R} m.

(** [payoff_matrix.shape[0]] *)
Definition shape0 {R} (M : matrix R) : nat := length (rows M).

(** [M] is an [m] by [n] array. *)
Definition has_shape {R} (m n : nat) (M : matrix R) : Prop :=
  shape0 M = m ∧ ncols M = n ∧ Forall (λ r, length r = n) (rows M).

(** [np.array(l)] for a non-empty list of rows. *)
Definition np_array {R} (l : list (list R)) : matrix R :=
  Matrix l (length (hd [] l)).

Section Program.
Context {R : Type} `{Scalar R}.

(** *** NumPy operations *)

Fixpoint dot_from (acc : R) (r s : list R) : R :=
  match r, s with
  | a :: r', b :: s' => dot_from (fadd acc (fmul a b)) r' s'
  | _, _ => acc
  end.

(** [sum_j r[j] * s[j]], accumulated from the left. *)
Definition dot (r s : list R) : R := dot_from fzero r s.

(** [M @ v] for a two-dimensional [M] and a one-dimensional [v]. *)
Definition matmul (M : matrix R) (v : list R) : result (list R) :=
  if decide (ncols M = length v)
  then Ok (map (λ r, dot r v) (rows M))
  else Raise DimensionMismatch.

(** The scan of [np.argmax] over floating-point data: the running maximum
    [mp] found at [max_ind] is replaced by an element [x] unless
    [x <= mp], and the scan stops at the first NaN. *)
Fixpoint argmax_from (mp : R) (max_ind i : nat) (l : list R) : nat :=
  match l with
  | [] => max_ind
  | x :: l' =>
      if negb (fle x mp)
      then if isnan x then i else argmax_from x i (S i) l'
      else argmax_from mp max_ind (S i) l'
  end.

Definition np_argmax (v : list R) : result nat :=
  match v with
  | [] => Raise EmptyArgmax
  | x :: l => if isnan x then Ok 0 else Ok (argmax_from x 0 1 l)
  end.

Definition np_ones (n : nat) : list R := replicate n fone.
Definition np_zeros (n : nat) : list R := replicate n fzero.

(** [v / x] for an array [v] and a number [x]. *)
Definition divide (v : list R) (x : R) : list R := map (λ y, fdiv y x) v.

(** [v[i] = x] *)
Definition setitem (v : list R) (i : nat) (x : R) : result (list R) :=
  if decide (i < length v) then Ok (<[i := x]> v) else Raise IndexOutOfBounds.

(** The elementwise test of [np.allclose(a, b, atol=atol)] on finite
    elements, with [rtol] left at its default:
    [|x - y| <= atol + rtol * |y|]. *)
Definition isclose (atol x y : R) : bool :=
  fle (fabs (fsub x y)) (fadd atol (fmul rtol (fabs y))).

(** [np.allclose] on two one-dimensional arrays of one length (the only
    shapes the program compares). *)
Definition np_allclose (a b : list R) (atol : R) : result bool :=
  if decide (length a = length b)
  then Ok (forallb (λ p, isclose atol p.1 p.2) (zip a b))
  else Raise BroadcastMismatch.

(** *** The program *)

Definition best_response (strategy : list R) (payoff_matrix : matrix R)
  : result nat :=
  matmul payoff_matrix strategy ≫= np_argmax.

(** [np.ones(n) / n] *)
Definition uniform (n : nat) : list R := divide (np_ones n) (of_count n).

(** The two strategy arrays bound by [strategy_a] and [strategy_b]. *)
Definition strategies : Type := list R * list R.

(** One pass through the body of the [for] loop: the two new strategies
    and the value of the condition of the final [if]. *)
Definition round (payoff_matrix_a payoff_matrix_b : matrix R) (tolerance : R)
    (st : strategies) : result (strategies * bool) :=
  let num_strategies_a := shape0 payoff_matrix_a in
  let num_strategies_b := shape0 payoff_matrix_b in
  let prev_strategy_a := st.1 in
  let prev_strategy_b := st.2 in
  best_a ← best_response st.2 payoff_matrix_a;
  strategy_a ← setitem (np_zeros num_strategies_a) best_a fone;
  best_b ← best_response strategy_a payoff_matrix_b;
  strategy_b ← setitem (np_zeros num_strategies_b) best_b fone;
  close_a ← np_allclose prev_strategy_a strategy_a tolerance;
  converged ← (if (close_a : bool)
               then np_allclose prev_strategy_b strategy_b tolerance
               else Ok false);
  Ok ((strategy_a, strategy_b), converged).

(** [for _ in range(max_iterations): ...; if ...: break] *)
Fixpoint iterate (payoff_matrix_a payoff_matrix_b : matrix R) (tolerance : R)
    (max_iterations : nat) (st : strategies) : result strategies :=
  match max_iterations with
  | 0 => Ok st
  | S remaining =>
      '(st', converged) ← round payoff_matrix_a payoff_matrix_b tolerance st;
      if (converged : bool) then Ok st'
      else iterate payoff_matrix_a payoff_matrix_b tolerance remaining st'
  end.

Definition calculate_nash_equilibrium
    (payoff_matrix_a payoff_matrix_b : matrix R)
    (max_iterations : nat) (tolerance : R) : result strategies :=
  let num_strategies_a := shape0 payoff_matrix_a in
  let num_strategies_b := shape0 payoff_matrix_b in
  let strategy_a := uniform num_strategies_a in
  let strategy_b := uniform num_strategies_b in
  iterate payoff_matrix_a payoff_matrix_b tolerance max_iterations
    (strategy_a, strategy_b).

(** *** Executions

    The same loop, recording what each round produced and how the loop was
    left. *)

Inductive exit := Converged | Exhausted.

Record execution := Execution {
  history : list (strategies * bool);
  how : exit;
}.

Fixpoint execute (payoff_matrix_a payoff_matrix_b : matrix R) (tolerance : R)
    (max_iterations : nat) (st : strategies) : result execution :=
  match max_iterations with
  | 0 => Ok (Execution [] Exhausted)
  | S remaining =>
      '(st', converged) ← round payoff_matrix_a payoff_matrix_b tolerance st;
      if (converged : bool) then Ok (Execution [(st', true)] Converged)
      else
        e ← execute payoff_matrix_a payoff_matrix_b tolerance remaining st';
        Ok (Execution ((st', false) :: history e) (how e))
  end.

(** The strategies bound when the loop is left. *)
Definition final (st : strategies) (e : execution) : strategies :=
  default st (last (fst <$> history e)).

Definition run (payoff_matrix_a payoff_matrix_b : matrix R)
    (max_iterations : nat) (tolerance : R) : result execution :=
  execute payoff_matrix_a payoff_matrix_b tolerance max_iterations
    (uniform (shape0 payoff_matrix_a), uniform (shape0 payoff_matrix_b)).

(** *** Predicates of the specification *)

(** An entry equal to 1 and every other entry 0. *)
Definition one_hot (v : list R) : Prop :=
  ∃ i, v !! i = Some fone ∧ ∀ j x, j ≠ i → v !! j = Some x → x = fzero.

(** The convergence test as the specification words it: every component
    within [tolerance] in absolute difference, for both players. *)
Definition within_tolerance (tolerance : R) (a b : list R) : bool :=
  forallb (λ p, fle (fabs (fsub p.1 p.2)) tolerance) (zip a b).

Definition spec_converged (tolerance : R) (prev new : strategies) : bool :=
  within_tolerance tolerance prev.1 new.1
  && within_tolerance tolerance prev.2 new.2.

(** The test [np.allclose] makes, component by component, for both players. *)
Definition allclose_holds (tolerance : R) (prev new : strategies) : Prop :=
  Forall2 (λ x y, isclose tolerance x y = true) prev.1 new.1
  ∧ Forall2 (λ x y, isclose tolerance x y = true) prev.2 new.2.

(** [i] is the first index of a largest element of [v]: no element is
    larger, and every element before it is strictly smaller. *)
Definition first_maximum (v : list R) (i : nat) : Prop :=
  ∃ x, v !! i = Some x
     ∧ (∀ k y, v !! k = Some y → fle y x = true)
     ∧ (∀ k y, k < i → v !! k = Some y → fle x y = false).

(** The expected payoffs [sum_j M[i][j] * s[j]], one per row [i]. *)
Definition expected_payoffs (M : matrix R) (s : list R) : list R :=
  map (λ r, dot r s) (rows M).

(** The entry [M[i][j]]. *)
Definition entry (M : matrix R) (i j : nat) : R :=
  nth j (nth i (rows M) []) fzero.

(** The expected payoff of row [i] as the specification writes it,
    [sum_j M[i][j] * s[j]]: the products over the column indices [j], added
    up from column 0 on. *)
Definition payoff_sum (M : matrix R) (s : list R) (i : nat) : R :=
  fold_left (λ acc j, fadd acc (fmul (entry M i j) (nth j s fzero)))
    (seq 0 (ncols M)) fzero.

(** The expected payoffs of all rows, by row index. *)
Definition payoff_sums (M : matrix R) (s : list R) : list R :=
  map (payoff_sum M s) (seq 0 (shape0 M)).

(** The one-hot array with its 1 at index [i]. *)
Definition point (n i : nat) : list R := <[i := fone]> (np_zeros n).

(** The updates of one round, player A first: A answers B's strategy of the
    round before, B answers the strategy A has just taken. *)
Definition sequential_update (payoff_matrix_a payoff_matrix_b : matrix R)
    (prev new : strategies) : Prop :=
  ∃ best_a best_b,
    best_response prev.2 payoff_matrix_a = Ok best_a
    ∧ new.1 = point (shape0 payoff_matrix_a) best_a
    ∧ best_response new.1 payoff_matrix_b = Ok best_b
    ∧ new.2 = point (shape0 payoff_matrix_b) best_b.

(** [P prev new converged] holds of every round of a history that starts
    from [st]. *)
Fixpoint every_round (P : strategies → strategies → bool → Prop)
    (st : strategies) (hist : list (strategies * bool)) : Prop :=
  match hist with
  | [] => True
  | (st', converged) :: rest => P st st' converged ∧ every_round P st' rest
  end.

(** How a loop of at most [max_iterations] rounds is left: by [break] in a
    round whose test passed, after rounds whose test failed; or after
    [max_iterations] rounds whose test failed each time. *)
Definition left_loop (max_iterations : nat) (e : execution) : Prop :=
  length (history e) ≤ max_iterations
  ∧ match how e with
    | Converged =>
        ∃ earlier st, history e = earlier ++ [(st, true)]
                      ∧ Forall (λ p, p.2 = false) earlier
    | Exhausted =>
        length (history e) = max_iterations
        ∧ Forall (λ p, p.2 = false) (history e)
    end.

(** [payoff_matrix_a.shape != payoff_matrix_b.shape], the test of [main]. *)
Definition shapes_differ (payoff_matrix_a payoff_matrix_b : matrix R) : bool :=
  negb (bool_decide ((shape0 payoff_matrix_a, ncols payoff_matrix_a)
                     = (shape0 payoff_matrix_b, ncols payoff_matrix_b))).
End Program.

(** ** The example of [main] and other games *)

Module Examples.
Definition payoff_matrix_a : matrix float :=
  np_array [[3; 0]; [5; 1]]%float.
Definition payoff_matrix_b : matrix float :=
  np_array [[3; 5]; [0; 1]]%float.
Definition default_tolerance : float := 1e-6%float.
Definition default_max_iterations : nat := 1000.

(** Matching pennies. *)
Definition pennies_a : matrix float := np_array [[1; -1]; [-1; 1]]%float.
Definition pennies_b : matrix float := np_array [[-1; 1]; [1; -1]]%float.

(** The strategies matching pennies is left with by round [k], for [k >= 1]. *)
Definition pennies_round (k : nat) : strategies :=
  if Nat.odd k then ([1; 0], [0; 1])%float else ([0; 1], [1; 0])%float.

(** The strategies bound after [k] rounds of matching pennies. *)
Definition pennies_after (k : nat) : strategies :=
  match k with
  | 0 => ([0.5; 0.5], [0.5; 0.5])%float
  | _ => pennies_round k
  end.

(** A game with three actions for each player, and a tolerance just below
    2/3. *)
Definition three_a : matrix float :=
  np_array [[1; 0; 0]; [0; 1; 0]; [0; 0; 1]]%float.
Definition three_b : matrix float :=
  np_array [[2; 0; 1]; [0; 1; 0]; [1; 0; 0]]%float.
Definition loose_tolerance : float := 0.66666%float.

(** Two arrays of one shape, two rows by three columns. *)
Definition wide_a : matrix float := np_array [[1; 2; 3]; [4; 5; 6]]%float.
Definition wide_b : matrix float := np_array [[6; 5; 4]; [3; 2; 1]]%float.

(** Shapes two by three and three by two. *)
Definition tall_b : matrix float := np_array [[1; 0]; [0; 1]; [1; 1]]%float.

(** Arrays without elements, of shapes [(0, 1)] and [(1, 0)]. *)
Definition empty_a : matrix float := Matrix [] 1.
Definition empty_b : matrix float := Matrix [[]] 0.
End Examples.

(** ** The object layer

    NumPy arrays are objects in a store and the functions receive references.
    Every NumPy call that returns an array allocates a new object; item
    assignment is the only statement that writes to an existing one. *)

Module Heap.
Inductive object (R : Type) :=
  | Vector (v : list R)
  | Array2 (M : matrix R).
Arguments Vector {R} v.
Arguments Array2 {R} M.

(** A store is the list of its objects, and a reference an index into it. *)
Abbreviation heap R := (list (object R)).
Abbreviation ref := nat.

Section Objects.
Context {R : Type} `{Scalar R}.
Local Abbreviation object := (object R).
Local Abbreviation heap := (heap R).

(** A statement: it runs on a store and leaves a value or an exception, and
    a store. *)
Definition py (A : Type) : Type := heap → result A * heap.

#[global] Instance py_ret : MRet py := λ A a h, (Ok a, h).
#[global] Instance py_bind : MBind py := λ A B f m h,
  match m h with
  | (Ok a, h') => f a h'
  | (Raise e, h') => (Raise e, h')
  end.

Definition new (o : object) : py ref := λ h, (Ok (length h), h ++ [o]).

Definition load_vector (l : ref) : py (list R) := λ h,
  match h !! l with
  | Some (Vector v) => (Ok v, h)
  | _ => (Raise NotAnArray, h)
  end.

Definition load_matrix (l : ref) : py (matrix R) := λ h,
  match h !! l with
  | Some (Array2 M) => (Ok M, h)
  | _ => (Raise NotAnArray, h)
  end.

Definition store (l : ref) (o : object) : py unit := λ h, (Ok (), <[l := o]> h).

Definition lift {A} (r : result A) : py A := λ h, (r, h).

(** *** NumPy operations on references *)

Definition op_shape0 (a : ref) : py nat :=
  M ← load_matrix a; mret (shape0 M).

Definition op_matmul (a b : ref) : py ref :=
  M ← load_matrix a; v ← load_vector b; r ← lift (matmul M v); new (Vector r).

Definition op_argmax (a : ref) : py nat :=
  v ← load_vector a; lift (np_argmax v).

Definition op_ones (n : nat) : py ref := new (Vector (np_ones n)).
Definition op_zeros (n : nat) : py ref := new (Vector (np_zeros n)).

Definition op_divide (a : ref) (x : R) : py ref :=
  v ← load_vector a; new (Vector (divide v x)).

Definition op_copy (a : ref) : py ref :=
  v ← load_vector a; new (Vector v).

Definition op_setitem (a : ref) (i : nat) (x : R) : py unit :=
  v ← load_vector a; v' ← lift (setitem v i x); store a (Vector v').

Definition op_allclose (a b : ref) (atol : R) : py bool :=
  x ← load_vector a; y ← load_vector b; lift (np_allclose x y atol).

(** *** The program *)

Definition best_response (strategy payoff_matrix : ref) : py nat :=
  product ← op_matmul payoff_matrix strategy; op_argmax product.

Definition round (payoff_matrix_a payoff_matrix_b : ref)
    (num_strategies_a num_strategies_b : nat) (tolerance : R)
    (st : ref * ref) : py ((ref * ref) * bool) :=
  prev_strategy_a ← op_copy st.1;
  prev_strategy_b ← op_copy st.2;
  best_a ← best_response st.2 payoff_matrix_a;
  strategy_a ← op_zeros num_strategies_a;
  op_setitem strategy_a best_a fone;;
  best_b ← best_response strategy_a payoff_matrix_b;
  strategy_b ← op_zeros num_strategies_b;
  op_setitem strategy_b best_b fone;;
  close_a ← op_allclose prev_strategy_a strategy_a tolerance;
  converged ← (if (close_a : bool)
               then op_allclose prev_strategy_b strategy_b tolerance
               else mret false);
  mret ((strategy_a, strategy_b), converged).

Fixpoint iterate (payoff_matrix_a payoff_matrix_b : ref)
    (num_strategies_a num_strategies_b : nat) (tolerance : R)
    (max_iterations : nat) (st : ref * ref) : py (ref * ref) :=
  match max_iterations with
  | 0 => mret st
  | S remaining =>
      r ← round payoff_matrix_a payoff_matrix_b
            num_strategies_a num_strategies_b tolerance st;
      if (r.2 : bool) then mret r.1
      else iterate payoff_matrix_a payoff_matrix_b
             num_strategies_a num_strategies_b tolerance remaining r.1
  end.

Definition calculate_nash_equilibrium (payoff_matrix_a payoff_matrix_b : ref)
    (max_iterations : nat) (tolerance : R) : py (ref * ref) :=
  num_strategies_a ← op_shape0 payoff_matrix_a;
  num_strategies_b ← op_shape0 payoff_matrix_b;
  ones_a ← op_ones num_strategies_a;
  strategy_a ← op_divide ones_a (of_count num_strategies_a);
  ones_b ← op_ones num_strategies_b;
  strategy_b ← op_divide ones_b (of_count num_strategies_b);
  iterate payoff_matrix_a payoff_matrix_b num_strategies_a num_strategies_b
    tolerance max_iterations (strategy_a, strategy_b).

(** What a caller sees of a call that returns two arrays: the exception, or
    the contents of the two arrays. *)
Definition observe (out : result (ref * ref) * heap)
  : result (option object * option object) :=
  (λ p : ref * ref, (out.2 !! p.1, out.2 !! p.2)) <$> out.1.

(** The same for one round, which also leaves the value of its test. *)
Definition observe_round (out : result ((ref * ref) * bool) * heap)
  : result ((option object * option object) * bool) :=
  (λ p : (ref * ref) * bool, ((out.2 !! p.1.1, out.2 !! p.1.2), p.2)) <$> out.1.

(** Two references to arrays with the contents [st]. *)
Definition contents (st : strategies) : option object * option object :=
  (Some (Vector st.1), Some (Vector st.2)).

(** No object of [h] was written to on the way to [h']. *)
Definition unchanged (h h' : heap) : Prop := h `prefix_of` h'.
End Objects.
End Heap.

(** Two stores that hold the arrays of [main] and a uniform strategy at
    different references, among other objects. *)
Module Stores.
Definition first : Heap.heap float := [
  Heap.Array2 Examples.payoff_matrix_a;
  Heap.Array2 Examples.payoff_matrix_b;
  Heap.Vector [0.5; 0.5]%float;
  Heap.Vector [1; 0; 0]%float ].

Definition second : Heap.heap float := [
  Heap.Vector [7]%float;
  Heap.Vector [0.5; 0.5]%float;
  Heap.Array2 Examples.payoff_matrix_b;
  Heap.Array2 Examples.three_a;
  Heap.Array2 Examples.payoff_matrix_a ].
End Stores.

(** ** What the first round raises, and the harness *)

Section Outcomes.
Context {R : Type} `{Scalar R}.

(** The exception of the first round, read off the shapes of the two
    arrays, in the order the round meets them: the product for player A, its
    [np.argmax], the product for player B, its [np.argmax]. *)
Definition shape_error (payoff_matrix_a payoff_matrix_b : matrix R)
  : option exception :=
  if decide (ncols payoff_matrix_a = shape0 payoff_matrix_b) then
    if decide (shape0 payoff_matrix_a = 0) then Some EmptyArgmax
    else if decide (ncols payoff_matrix_b = shape0 payoff_matrix_a) then
      if decide (shape0 payoff_matrix_b = 0) then Some EmptyArgmax else None
    else Some DimensionMismatch
  else Some DimensionMismatch.

(** Each strategy is the one-hot vector at the best response to the other. *)
Definition mutual_best_responses (payoff_matrix_a payoff_matrix_b : matrix R)
    (st : strategies (R:=R)) : Prop :=
  ∃ best_a best_b,
    best_response st.2 payoff_matrix_a = Ok best_a
    ∧ st.1 = point (shape0 payoff_matrix_a) best_a
    ∧ best_response st.1 payoff_matrix_b = Ok best_b
    ∧ st.2 = point (shape0 payoff_matrix_b) best_b.
End Outcomes.

(** [main], with the two two-dimensional arrays it builds as parameters.
    What it prints is kept as a list of lines; an exception that its
    [except ValueError] does not catch is returned beside them. *)
Module Harness.
Import String.

(** The exceptions of NumPy that are instances of [ValueError]; an
    [IndexError] is not. *)
Definition is_ValueError (e : exception) : bool :=
  match e with
  | DimensionMismatch | EmptyArgmax | BroadcastMismatch => true
  | IndexOutOfBounds | NotAnArray => false
  end.

(** An exception raised inside the [try]: the [ValueError] of [main] with
    its message, or one that came out of [calculate_nash_equilibrium]. *)
Inductive raised :=
  | ValueError (message : string)
  | FromNumPy (e : exception).

Inductive line :=
  | Text (s : string)                          (* print(s) *)
  | Labelled (label : string) (v : list float) (* print(label, v) *)
  | Error (e : raised).                        (* print(f"Error: {e}") *)

(** The body of the [try]: the lines printed and the exception raised, if
    any. *)
Definition try_body (payoff_matrix_a payoff_matrix_b : matrix float)
  : list line * option raised :=
  if shapes_differ payoff_matrix_a payoff_matrix_b
  then ([], Some (ValueError "Payoff matrices must have the same dimensions."))
  else
    match calculate_nash_equilibrium payoff_matrix_a payoff_matrix_b
            Examples.default_max_iterations Examples.default_tolerance with
    | Ok (strategy_a, strategy_b) =>
        ([Text "Nash Equilibrium Strategies:";
          Labelled "Player A's Strategy:" strategy_a;
          Labelled "Player B's Strategy:" strategy_b], None)
    | Raise e => ([], Some (FromNumPy e))
    end.

Definition main_with (payoff_matrix_a payoff_matrix_b : matrix float)
  : list line * option exception :=
  match try_body payoff_matrix_a payoff_matrix_b with
  | (printed, None) => (printed, None)
  | (printed, Some (ValueError message)) =>
      (printed ++ [Error (ValueError message)], None)
  | (printed, Some (FromNumPy e)) =>
      if is_ValueError e then (printed ++ [Error (FromNumPy e)], None)
      else (printed, Some e)
  end.

Definition main : list line * option exception :=
  main_with Examples.payoff_matrix_a Examples.payoff_matrix_b.
End Harness.

(** A game with one action for each player, a matrix whose three rows tie
    against the uniform strategy, a matrix with NaN among its payoffs, and
    one whose payoffs overflow. *)
Module Games.
Definition single_a : matrix float := np_array [[5]]%float.
Definition single_b : matrix float := np_array [[-2]]%float.

Definition tie_matrix : matrix float :=
  np_array [[1; 1]; [2; 0]; [0; 2]]%float.
Definition tie_strategy : list float := [0.5; 0.5]%float.

Definition nan_matrix : matrix float :=
  np_array [[1; 0]; [nan; 1]; [nan; 2]]%float.

(** Finite payoffs whose products with the strategy [[10, 10]] overflow. *)
Definition overflow_matrix : matrix float :=
  np_array [[1; 1]; [1e308; -1e308]]%float.

(** The execution of the example of [main]. *)
Definition main_execution : execution (R:=float) :=
  Execution [(([0; 1], [1; 0]), false); (([0; 1], [1; 0]), true)]%float
    Converged.
End Games.

(** * Properties of the value layer *)

Section Basics.
Context {R : Type} `{Scalar R}.
Implicit Types (M A B : matrix R) (v s r : list R) (st : strategies (R:=R)).

Lemma bind_Ok_inv {X Y} (m : result X) (f : X → result Y) (y : Y) :
  m ≫= f = Ok y → ∃ x, m = Ok x ∧ f x = Ok y.
Proof. destruct m as [x|e]; simpl; [eauto | discriminate]. Qed.

Lemma matmul_Ok M v :
  ncols M = length v → matmul M v = Ok (map (λ r, dot r v) (rows M)).
Proof. intros E. unfold matmul. by rewrite decide_True. Qed.

Lemma matmul_mismatch M v :
  ncols M ≠ length v → matmul M v = Raise DimensionMismatch.
Proof. intros E. unfold matmul. by rewrite decide_False. Qed.

Lemma matmul_inv M v r :
  matmul M v = Ok r →
  ncols M = length v ∧ r = map (λ r, dot r v) (rows M) ∧ length r = shape0 M.
Proof.
  unfold matmul. case_decide; [|discriminate].
  intros [= <-]. by rewrite length_map.
Qed.

Lemma argmax_from_bound l : ∀ mp k i,
  k < i → argmax_from mp k i l < i + length l.
Proof.
  induction l as [|x l IH]; intros mp k i Hk; simpl; [lia|].
  destruct (negb (fle x mp)).
  - destruct (isnan x); [lia|].
    specialize (IH x i (S i)). lia.
  - specialize (IH mp k (S i)). lia.
Qed.

Lemma np_argmax_bound v i : np_argmax v = Ok i → i < length v.
Proof.
  destruct v as [|x l]; simpl; [discriminate|].
  destruct (isnan x); intros [= <-]; [lia|].
  pose proof (argmax_from_bound l x 0 1). lia.
Qed.

Lemma np_argmax_Ok v : 0 < length v → ∃ i, np_argmax v = Ok i.
Proof.
  destruct v as [|x l]; simpl; [lia|].
  destruct (isnan x); eauto.
Qed.

Lemma best_response_inv s M i :
  best_response s M = Ok i → ncols M = length s ∧ i < shape0 M.
Proof.
  unfold best_response. intros (r & Hr & Hi)%bind_Ok_inv.
  apply matmul_inv in Hr as (? & _ & Hlen).
  apply np_argmax_bound in Hi. split; [done | lia].
Qed.

Lemma best_response_Ok s M :
  ncols M = length s → 0 < shape0 M →
  ∃ i, best_response s M = Ok i ∧ i < shape0 M.
Proof.
  intros Hc Hr. unfold best_response. rewrite matmul_Ok by done. simpl.
  destruct (np_argmax_Ok (map (λ r, dot r s) (rows M))) as [i Hi].
  { by rewrite length_map. }
  exists i. split; [done|].
  apply np_argmax_bound in Hi. by rewrite length_map in Hi.
Qed.

Lemma best_response_mismatch s M :
  ncols M ≠ length s → best_response s M = Raise DimensionMismatch.
Proof. intros E. unfold best_response. by rewrite matmul_mismatch. Qed.

Lemma best_response_empty s M :
  ncols M = length s → shape0 M = 0 → best_response s M = Raise EmptyArgmax.
Proof.
  intros Hc Hr. unfold best_response. rewrite matmul_Ok by done.
  destruct M as [[|r l] c]; [done | discriminate].
Qed.

Lemma setitem_zeros n i :
  i < n → setitem (np_zeros n) i fone = Ok (<[i := fone]> (np_zeros n)).
Proof.
  intros Hi. unfold setitem, np_zeros.
  rewrite decide_True; [done|]. by rewrite length_replicate.
Qed.

Lemma setitem_inv v i x v' :
  setitem v i x = Ok v' → i < length v ∧ v' = <[i := x]> v.
Proof. unfold setitem. case_decide; [|discriminate]. by intros [= <-]. Qed.

Lemma np_allclose_Ok a b atol :
  length a = length b →
  np_allclose a b atol = Ok (forallb (λ p, isclose atol p.1 p.2) (zip a b)).
Proof. intros E. unfold np_allclose. by rewrite decide_True. Qed.

Lemma np_allclose_inv a b atol c :
  np_allclose a b atol = Ok c →
  length a = length b ∧ c = forallb (λ p, isclose atol p.1 p.2) (zip a b).
Proof. unfold np_allclose. case_decide; [|discriminate]. by intros [= <-]. Qed.

Lemma forallb_zip_Forall2 {X} (P : X → X → bool) (a b : list X) :
  length a = length b →
  forallb (λ p, P p.1 p.2) (zip a b) = true ↔ Forall2 (λ x y, P x y = true) a b.
Proof.
  revert b. induction a as [|x a IH]; intros [|y b] Hlen; simpl in *; try lia.
  - split; [constructor | done].
  - rewrite andb_true_iff, IH by lia. split.
    + intros [? ?]. by constructor.
    + by inversion 1.
Qed.

Lemma length_uniform n : length (uniform n) = n.
Proof. unfold uniform, divide, np_ones. by rewrite length_map, length_replicate. Qed.

Lemma length_point n i : length (point n i) = n.
Proof. unfold point, np_zeros. by rewrite length_insert, length_replicate. Qed.

Lemma point_one_hot n i : i < n → one_hot (point n i).
Proof.
  intros Hi. exists i. unfold point, np_zeros. split.
  - apply list_lookup_insert_eq. by rewrite length_replicate.
  - intros j x Hj. rewrite list_lookup_insert_ne by done.
    by intros [-> _]%lookup_replicate.
Qed.

(** What a round that raises nothing has computed. *)
Lemma round_inv A B tolerance st st' converged :
  round A B tolerance st = Ok (st', converged) →
  sequential_update A B st st'
  ∧ length st.1 = shape0 A ∧ length st'.1 = shape0 A
  ∧ (length st.2 = shape0 B ∨ converged = false) ∧ length st'.2 = shape0 B
  ∧ converged
    = forallb (λ p, isclose tolerance p.1 p.2) (zip st.1 st'.1)
      && (if decide (length st.2 = shape0 B)
          then forallb (λ p, isclose tolerance p.1 p.2) (zip st.2 st'.2)
          else false).
Proof.
  unfold round. destruct st as [sa sb]; simpl.
  intros (best_a & Ha & Hrest)%bind_Ok_inv.
  apply bind_Ok_inv in Hrest as (sa' & Hsa & Hrest).
  apply bind_Ok_inv in Hrest as (best_b & Hb & Hrest).
  apply bind_Ok_inv in Hrest as (sb' & Hsb & Hrest).
  apply bind_Ok_inv in Hrest as (close_a & Hca & Hrest).
  apply bind_Ok_inv in Hrest as (c & Hc & [= <- <-]).
  apply setitem_inv in Hsa as [_ ->]. apply setitem_inv in Hsb as [_ ->].
  fold (point (shape0 A) best_a) in *. fold (point (shape0 B) best_b) in *.
  apply np_allclose_inv in Hca as [Hla ->]. rewrite length_point in Hla.
  simpl. rewrite !length_point.
  split; [by exists best_a, best_b|].
  do 2 (split; [done|]).
  destruct (forallb _ (zip sa _)); simpl.
  - apply np_allclose_inv in Hc as [Hlb ->]. rewrite length_point in Hlb.
    rewrite decide_True by done. auto.
  - injection Hc as <-. auto.
Qed.

(** A round raises nothing when the shapes fit and both players have an
    action. *)
Lemma round_Ok A B tolerance st :
  ncols A = shape0 B → ncols B = shape0 A →
  0 < shape0 A → 0 < shape0 B →
  length st.1 = shape0 A → length st.2 = shape0 B →
  ∃ st' converged, round A B tolerance st = Ok (st', converged).
Proof.
  intros HA HB HposA HposB Hla Hlb. destruct st as [sa sb]; simpl in *.
  unfold round; simpl.
  destruct (best_response_Ok sb A) as (best_a & -> & Hba); [congruence|done|].
  simpl. rewrite setitem_zeros by done. simpl.
  fold (point (shape0 A) best_a).
  destruct (best_response_Ok (point (shape0 A) best_a) B) as (best_b & -> & Hbb);
    [by rewrite length_point|done|].
  simpl. rewrite setitem_zeros by done. simpl.
  fold (point (shape0 B) best_b).
  rewrite !np_allclose_Ok by (by rewrite length_point). simpl.
  destruct (forallb _ (zip sa _)); simpl; eauto.
Qed.
End Basics.

Section Executions.
Context {R : Type} `{Scalar R}.
Implicit Types (A B : matrix R) (st : strategies (R:=R)) (e : execution (R:=R)).

Lemma every_round_impl (P Q : strategies (R:=R) → strategies → bool → Prop) st hist :
  (∀ prev new c, P prev new c → Q prev new c) →
  every_round P st hist → every_round Q st hist.
Proof.
  intros HPQ. revert st.
  induction hist as [|[st' c] hist IH]; intros st; simpl; [done|].
  intros [? ?]. split; auto.
Qed.

Lemma every_round_Forall (P : strategies (R:=R) → Prop) st hist :
  every_round (λ _ new _, P new) st hist → Forall (λ p, P p.1) hist.
Proof.
  revert st. induction hist as [|[st' c] hist IH]; intros st; simpl.
  - constructor.
  - intros [? ?]. constructor; eauto.
Qed.

Lemma final_cons st st' c hist how :
  final st (Execution ((st', c) :: hist) how) = final st' (Execution hist how).
Proof.
  unfold final. cbn [history]. rewrite fmap_cons.
  destruct (fst <$> hist) as [|x l]; [done|].
  rewrite last_cons_cons.
  destruct (last (x :: l)) eqn:E; [done|]. by apply last_None in E.
Qed.

(** The loop of the program returns the strategies of the last round of its
    execution. *)
Lemma iterate_final A B tolerance max_iterations : ∀ st,
  iterate A B tolerance max_iterations st
  = final st <$> execute A B tolerance max_iterations st.
Proof.
  induction max_iterations as [|n IH]; intros st; simpl; [done|].
  destruct (round A B tolerance st) as [[st' [|]]|err]; simpl; [done| |done].
  rewrite IH. destruct (execute A B tolerance n st') as [e|err]; simpl; [|done].
  by rewrite final_cons; destruct e.
Qed.

Lemma calculate_final A B max_iterations tolerance :
  calculate_nash_equilibrium A B max_iterations tolerance
  = final (uniform (shape0 A), uniform (shape0 B))
      <$> run A B max_iterations tolerance.
Proof. apply iterate_final. Qed.

(** Every recorded round is a round of the program from the strategies the
    round before left. *)
Lemma execute_rounds A B tolerance max_iterations : ∀ st e,
  execute A B tolerance max_iterations st = Ok e →
  every_round (λ prev new c, round A B tolerance prev = Ok (new, c))
    st (history e).
Proof.
  induction max_iterations as [|n IH]; intros st e; simpl.
  - by intros [= <-].
  - destruct (round A B tolerance st) as [[st' [|]]|err] eqn:Hr; simpl;
      [by intros [= <-] | | done].
    destruct (execute A B tolerance n st') as [e'|err] eqn:He; simpl; [|done].
    intros [= <-]; simpl. split; [done|]. by apply IH.
Qed.

Lemma execute_left_loop A B tolerance max_iterations : ∀ st e,
  execute A B tolerance max_iterations st = Ok e → left_loop max_iterations e.
Proof.
  induction max_iterations as [|n IH]; intros st e; simpl.
  - intros [= <-]. by repeat split.
  - destruct (round A B tolerance st) as [[st' [|]]|err] eqn:Hr; simpl;
      [ | | done].
    + intros [= <-]. split; simpl; [lia|]. by exists [], st'.
    + destruct (execute A B tolerance n st') as [e'|err] eqn:He; simpl; [|done].
      intros [= <-]. destruct (IH _ _ He) as [Hlen Hhow].
      split; simpl; [lia|].
      destruct (how e').
      * destruct Hhow as (earlier & last_st & -> & Hf).
        exists ((st', false) :: earlier), last_st. split; [done|].
        by constructor.
      * destruct Hhow as [-> Hf]. split; [done | by constructor].
Qed.

(** With shapes that fit and an action for each player the loop raises
    nothing. *)
Lemma execute_Ok A B tolerance max_iterations : ∀ st,
  ncols A = shape0 B → ncols B = shape0 A →
  0 < shape0 A → 0 < shape0 B →
  length st.1 = shape0 A → length st.2 = shape0 B →
  ∃ e, execute A B tolerance max_iterations st = Ok e.
Proof.
  intros st HA HB HposA HposB. revert st.
  induction max_iterations as [|n IH]; intros st Hla Hlb; simpl; [eauto|].
  destruct (round_Ok A B tolerance st) as (st' & c & Hr); try done.
  rewrite Hr; simpl. destruct c; [eauto|].
  apply round_inv in Hr as (_ & _ & Hla' & _ & Hlb' & _).
  destruct (IH st' Hla' Hlb') as [e ->]. simpl. eauto.
Qed.

Lemma final_length A B tolerance max_iterations : ∀ st e,
  execute A B tolerance max_iterations st = Ok e →
  length st.1 = shape0 A → length st.2 = shape0 B →
  length (final st e).1 = shape0 A ∧ length (final st e).2 = shape0 B.
Proof.
  induction max_iterations as [|n IH]; intros st e; simpl.
  - by intros [= <-].
  - destruct (round A B tolerance st) as [[st' [|]]|err] eqn:Hr; simpl;
      [ | | done].
    + intros [= <-] _ _. unfold final; simpl.
      by apply round_inv in Hr as (_ & _ & ? & _ & ? & _).
    + destruct (execute A B tolerance n st') as [e'|err] eqn:He; simpl; [|done].
      intros [= <-] _ _. rewrite final_cons.
      apply round_inv in Hr as (_ & _ & ? & _ & ? & _).
      destruct e'. by apply (IH st').
Qed.
End Executions.

(** * Properties of the object layer *)

Section HeapFacts.
Context {R : Type} `{Scalar R}.
Implicit Types (h : Heap.heap R) (v : list R) (M A B : matrix R).

Lemma py_bind_unfold {X Y} (m : Heap.py X) (k : X → Heap.py Y) h :
  (m ≫= k) h
  = match m h with
    | (Ok a, h') => k a h'
    | (Raise e, h') => (Raise e, h')
    end.
Proof. reflexivity. Qed.

Lemma lookup_new h (o : Heap.object R) : (h ++ [o]) !! length h = Some o.
Proof. by apply list_lookup_middle. Qed.

Lemma unchanged_refl h : Heap.unchanged h h.
Proof. done. Qed.

Lemma unchanged_new h h' (o : Heap.object R) :
  Heap.unchanged h h' → Heap.unchanged h (h' ++ [o]).
Proof. intros Hp. by apply prefix_app_r. Qed.

Lemma unchanged_lookup h h' l (o : Heap.object R) :
  Heap.unchanged h h' → h !! l = Some o → h' !! l = Some o.
Proof. intros Hp Hl. by eapply prefix_lookup_Some. Qed.

Lemma op_copy_spec h a v :
  h !! a = Some (Heap.Vector v) →
  Heap.op_copy a h = (Ok (length h), h ++ [Heap.Vector v]).
Proof.
  intros Ha. unfold Heap.op_copy. rewrite py_bind_unfold.
  unfold Heap.load_vector. by rewrite Ha.
Qed.

Lemma op_setitem_new h v i x :
  Heap.op_setitem (length h) i x (h ++ [Heap.Vector v])
  = match setitem v i x with
    | Ok v' => (Ok (), h ++ [Heap.Vector v'])
    | Raise e => (Raise e, h ++ [Heap.Vector v])
    end.
Proof.
  unfold Heap.op_setitem. rewrite py_bind_unfold.
  unfold Heap.load_vector. rewrite lookup_new.
  rewrite py_bind_unfold. unfold Heap.lift.
  destruct (setitem v i x) as [v'|e]; [|done].
  unfold Heap.store. f_equal.
  etrans; [by apply insert_app_r_alt|]. by rewrite Nat.sub_diag.
Qed.

Lemma op_allclose_spec h a b x y atol :
  h !! a = Some (Heap.Vector x) → h !! b = Some (Heap.Vector y) →
  Heap.op_allclose a b atol h = (np_allclose x y atol, h).
Proof.
  intros Ha Hb. unfold Heap.op_allclose.
  rewrite py_bind_unfold. unfold Heap.load_vector at 1. rewrite Ha.
  rewrite py_bind_unfold. unfold Heap.load_vector. by rewrite Hb.
Qed.

(** A call of [best_response] returns what the value layer computes from the
    contents of its two arguments, and writes to no object of the store. *)
Lemma best_response_spec h s m v M :
  h !! s = Some (Heap.Vector v) → h !! m = Some (Heap.Array2 M) →
  ∃ h', Heap.unchanged h h'
        ∧ Heap.best_response s m h = (best_response v M, h').
Proof.
  intros Hs Hm. unfold Heap.best_response, best_response.
  rewrite py_bind_unfold. unfold Heap.op_matmul.
  rewrite py_bind_unfold. unfold Heap.load_matrix. rewrite Hm.
  rewrite py_bind_unfold. unfold Heap.load_vector at 1. rewrite Hs.
  rewrite py_bind_unfold. unfold Heap.lift at 1.
  destruct (matmul M v) as [r|e]; simpl.
  - exists (h ++ [Heap.Vector r]). split; [by apply unchanged_new|].
    unfold Heap.new, Heap.op_argmax. rewrite py_bind_unfold.
    unfold Heap.load_vector. rewrite lookup_new. done.
  - by exists h.
Qed.

Lemma op_zeros_spec h n :
  Heap.op_zeros n h = (Ok (length h), h ++ [Heap.Vector (np_zeros n)]).
Proof. reflexivity. Qed.

Lemma result_bind_Ok {X Y} (x : X) (k : X → result Y) : Ok x ≫= k = k x.
Proof. reflexivity. Qed.

Lemma result_bind_Raise {X Y} e (k : X → result Y) : Raise e ≫= k = Raise e.
Proof. reflexivity. Qed.

(** One round on the store computes the round of the value layer on the
    contents of the arrays, in new objects. *)
Lemma round_refines h pa pb A B tolerance la lb va vb :
  h !! pa = Some (Heap.Array2 A) → h !! pb = Some (Heap.Array2 B) →
  h !! la = Some (Heap.Vector va) → h !! lb = Some (Heap.Vector vb) →
  let out := Heap.round pa pb (shape0 A) (shape0 B) tolerance (la, lb) h in
  Heap.unchanged h out.2
  ∧ Heap.observe_round out
    = (λ p, (Heap.contents p.1, p.2)) <$> round A B tolerance (va, vb).
Proof.
  intros Hpa Hpb Hla Hlb. unfold Heap.round, round. cbn [fst snd].
  rewrite py_bind_unfold, (op_copy_spec h la va Hla).
  set (h1 := h ++ [Heap.Vector va]).
  assert (U1 : Heap.unchanged h h1) by (by apply unchanged_new).
  rewrite py_bind_unfold, (op_copy_spec h1 lb vb)
    by (by eapply unchanged_lookup).
  set (h2 := h1 ++ [Heap.Vector vb]).
  assert (U2 : Heap.unchanged h h2) by (by apply unchanged_new).
  rewrite py_bind_unfold.
  destruct (best_response_spec h2 lb pa vb A) as (h3 & U23 & ->);
    [by eapply unchanged_lookup | by eapply unchanged_lookup |].
  assert (U3 : Heap.unchanged h h3) by (by trans h2).
  destruct (best_response vb A) as [best_a|e]; [|done].
  rewrite result_bind_Ok, py_bind_unfold, op_zeros_spec.
  rewrite py_bind_unfold, op_setitem_new.
  destruct (setitem (np_zeros (shape0 A)) best_a fone) as [va'|e];
    [|by split; [apply unchanged_new|]].
  rewrite result_bind_Ok.
  set (h4 := h3 ++ [Heap.Vector va']).
  assert (U4 : Heap.unchanged h h4) by (by apply unchanged_new).
  rewrite py_bind_unfold.
  destruct (best_response_spec h4 (length h3) pb va' B) as (h5 & U45 & ->);
    [by apply lookup_new | by eapply unchanged_lookup |].
  assert (U5 : Heap.unchanged h h5) by (by trans h4).
  destruct (best_response va' B) as [best_b|e]; [|done].
  rewrite result_bind_Ok, py_bind_unfold, op_zeros_spec.
  rewrite py_bind_unfold, op_setitem_new.
  destruct (setitem (np_zeros (shape0 B)) best_b fone) as [vb'|e];
    [|by split; [apply unchanged_new|]].
  rewrite result_bind_Ok.
  set (h6 := h5 ++ [Heap.Vector vb']).
  assert (U56 : Heap.unchanged h5 h6) by (by apply unchanged_new).
  assert (U6 : Heap.unchanged h h6) by (by apply unchanged_new).
  assert (Hprev_a : h6 !! length h = Some (Heap.Vector va)).
  { apply (unchanged_lookup h1); [|by apply lookup_new].
    trans h2; [by apply unchanged_new|]. trans h3; [done|].
    trans h4; [by apply unchanged_new|]. by trans h5. }
  assert (Hprev_b : h6 !! length h1 = Some (Heap.Vector vb)).
  { apply (unchanged_lookup h2); [|by apply lookup_new].
    trans h3; [done|]. trans h4; [by apply unchanged_new|]. by trans h5. }
  assert (Hnew_a : h6 !! length h3 = Some (Heap.Vector va')).
  { apply (unchanged_lookup h4); [|by apply lookup_new]. by trans h5. }
  assert (Hnew_b : h6 !! length h5 = Some (Heap.Vector vb'))
    by apply lookup_new.
  rewrite py_bind_unfold, (op_allclose_spec h6 _ _ va va') by done.
  destruct (np_allclose va va' tolerance) as [close_a|e]; [|done].
  rewrite result_bind_Ok, py_bind_unfold.
  destruct close_a.
  - rewrite (op_allclose_spec h6 _ _ vb vb') by done.
    destruct (np_allclose vb vb' tolerance) as [c|e]; [|done].
    split; [done|]. unfold Heap.observe_round, Heap.contents; simpl.
    by repeat f_equal.
  - split; [done|]. unfold Heap.observe_round, Heap.contents; simpl.
    by repeat f_equal.
Qed.

Lemma iterate_refines pa pb A B tolerance max_iterations :
  ∀ h la lb va vb,
  h !! pa = Some (Heap.Array2 A) → h !! pb = Some (Heap.Array2 B) →
  h !! la = Some (Heap.Vector va) → h !! lb = Some (Heap.Vector vb) →
  let out := Heap.iterate pa pb (shape0 A) (shape0 B) tolerance
               max_iterations (la, lb) h in
  Heap.unchanged h out.2
  ∧ Heap.observe out
    = Heap.contents <$> iterate A B tolerance max_iterations (va, vb).
Proof.
  induction max_iterations as [|n IH]; intros h la lb va vb Hpa Hpb Hla Hlb.
  - split; [done|]. unfold Heap.observe, Heap.contents; simpl.
    by repeat f_equal.
  - cbn [Heap.iterate iterate]. cbv zeta. rewrite py_bind_unfold.
    destruct (round_refines h pa pb A B tolerance la lb va vb) as [U E];
      try done.
    destruct (Heap.round pa pb (shape0 A) (shape0 B) tolerance (la, lb) h)
      as [r h'].
    cbn [fst snd] in U, E. unfold Heap.observe_round in E.
    destruct (round A B tolerance (va, vb)) as [[new c]|e];
      destruct r as [[[la' lb'] c']|e']; simpl in E; try discriminate.
    + injection E as Hla' Hlb' ->. rewrite result_bind_Ok. cbn [fst snd].
      destruct c.
      * split; [done|]. unfold Heap.observe, Heap.contents; simpl.
        by repeat f_equal.
      * destruct (IH h' la' lb' new.1 new.2) as [U' E'];
          [by eapply unchanged_lookup | by eapply unchanged_lookup
          | done | done |].
        split; [by etrans|]. by destruct new.
    + by injection E as ->.
Qed.

Lemma op_shape0_spec h a M :
  h !! a = Some (Heap.Array2 M) → Heap.op_shape0 a h = (Ok (shape0 M), h).
Proof.
  intros Ha. unfold Heap.op_shape0. rewrite py_bind_unfold.
  unfold Heap.load_matrix. by rewrite Ha.
Qed.

Lemma op_divide_spec h a v x :
  h !! a = Some (Heap.Vector v) →
  Heap.op_divide a x h = (Ok (length h), h ++ [Heap.Vector (divide v x)]).
Proof.
  intros Ha. unfold Heap.op_divide. rewrite py_bind_unfold.
  unfold Heap.load_vector. by rewrite Ha.
Qed.

(** The function on the store returns two arrays with the contents the value
    layer computes from the contents of the two matrices, or raises the same
    exception, and writes to no object that was in the store. *)
Lemma calculate_refines h pa pb A B max_iterations tolerance :
  h !! pa = Some (Heap.Array2 A) → h !! pb = Some (Heap.Array2 B) →
  let out := Heap.calculate_nash_equilibrium pa pb max_iterations tolerance h in
  Heap.unchanged h out.2
  ∧ Heap.observe out
    = Heap.contents
        <$> calculate_nash_equilibrium A B max_iterations tolerance.
Proof.
  intros Hpa Hpb.
  unfold Heap.calculate_nash_equilibrium, calculate_nash_equilibrium.
  cbv zeta.
  rewrite py_bind_unfold, (op_shape0_spec h pa A Hpa).
  rewrite py_bind_unfold, (op_shape0_spec h pb B Hpb).
  rewrite py_bind_unfold.
  change (Heap.op_ones (shape0 A) h)
    with (Ok (length h), h ++ [Heap.Vector (np_ones (shape0 A))]).
  cbv beta iota.
  set (h1 := h ++ [Heap.Vector (np_ones (shape0 A))]).
  rewrite py_bind_unfold, (op_divide_spec h1 _ (np_ones (shape0 A)))
    by apply lookup_new.
  fold (uniform (shape0 A)).
  set (h2 := h1 ++ [Heap.Vector (uniform (shape0 A))]).
  rewrite py_bind_unfold.
  change (Heap.op_ones (shape0 B) h2)
    with (Ok (length h2), h2 ++ [Heap.Vector (np_ones (shape0 B))]).
  cbv beta iota.
  set (h3 := h2 ++ [Heap.Vector (np_ones (shape0 B))]).
  rewrite py_bind_unfold, (op_divide_spec h3 _ (np_ones (shape0 B)))
    by apply lookup_new.
  fold (uniform (shape0 B)).
  set (h4 := h3 ++ [Heap.Vector (uniform (shape0 B))]).
  assert (U4 : Heap.unchanged h h4) by (by do 4 apply unchanged_new).
  destruct (iterate_refines pa pb A B tolerance max_iterations h4
              (length h1) (length h3) (uniform (shape0 A)) (uniform (shape0 B)))
    as [U E].
  - by eapply unchanged_lookup.
  - by eapply unchanged_lookup.
  - apply (unchanged_lookup h2); [by do 2 apply unchanged_new|].
    apply lookup_new.
  - apply lookup_new.
  - split; [by etrans | done].
Qed.
End HeapFacts.

(** * The claims *)

Lemma float_zero_one : (fzero : float) ≠ fone.
Proof.
  simpl. intros E. apply (f_equal PrimFloat.is_zero) in E.
  vm_compute in E. discriminate.
Qed.

(** ** The example of [main] *)

(** C1, as stated, fails: on the matrices of [main] with the default
    arguments the function does not return the pair ([0,1], [0,1]). *)
Lemma main_example_not_both_index_1 :
  calculate_nash_equilibrium Examples.payoff_matrix_a Examples.payoff_matrix_b
    Examples.default_max_iterations Examples.default_tolerance
  ≠ Ok ([0; 1], [0; 1])%float.
Proof.
  intros E.
  apply (f_equal (λ r, match r with
                       | Ok (_, strategy_b) => PrimFloat.is_zero <$> strategy_b
                       | Raise _ => []
                       end)) in E.
  vm_compute in E. discriminate.
Qed.

(** C1, amended: on the matrices of [main] with the default arguments the
    loop is left by convergence in its second round, and the function returns
    ([0,1], [1,0]): player A ends on action index 1, player B on action
    index 0. *)
Theorem main_example_converges :
  run Examples.payoff_matrix_a Examples.payoff_matrix_b
    Examples.default_max_iterations Examples.default_tolerance
  = Ok (Execution [(([0; 1], [1; 0]), false); (([0; 1], [1; 0]), true)]%float
          Converged)
  ∧ calculate_nash_equilibrium Examples.payoff_matrix_a Examples.payoff_matrix_b
      Examples.default_max_iterations Examples.default_tolerance
    = Ok ([0; 1], [1; 0])%float.
Proof. split; vm_compute; reflexivity. Qed.

(** The pair returned for the example of [main] is a pair of mutual best
    responses when each matrix is read as the program reads it, rows for
    the owner's actions. *)
Lemma main_example_mutual_best_responses :
  best_response [1; 0]%float Examples.payoff_matrix_a = Ok 1
  ∧ best_response [0; 1]%float Examples.payoff_matrix_b = Ok 0.
Proof. split; vm_compute; reflexivity. Qed.

(** ** The best response is the first maximum *)

Section Sums.
Context {R : Type} `{Scalar R}.
Implicit Types (M : matrix R) (r s : list R).

Lemma fold_left_shift {X} (f : X → nat → X) (l : list nat) : ∀ acc,
  fold_left f (map S l) acc = fold_left (λ a j, f a (S j)) l acc.
Proof. induction l as [|j l IH]; intros acc; simpl; [done | apply IH]. Qed.

(** The product of a row with a strategy of the same length is the sum over
    the indices. *)
Lemma dot_from_sum r : ∀ s acc,
  length r = length s →
  dot_from acc r s
  = fold_left (λ a j, fadd a (fmul (nth j r fzero) (nth j s fzero)))
      (seq 0 (length r)) acc.
Proof.
  induction r as [|a r IH]; intros [|b s] acc Hlen; simpl in *; try done.
  rewrite <- seq_shift, fold_left_shift. apply IH. lia.
Qed.

Lemma expected_payoffs_from M s (l : list (list R)) : ∀ pre,
  rows M = pre ++ l →
  Forall (λ r, length r = ncols M) l → length s = ncols M →
  map (λ r, dot r s) l = map (payoff_sum M s) (seq (length pre) (length l)).
Proof.
  induction l as [|r l IH]; intros pre Hrows Hrect Hs; simpl; [done|].
  apply Forall_cons in Hrect as [Hr Hrect]. f_equal.
  - unfold dot, payoff_sum, entry. rewrite dot_from_sum by lia.
    rewrite Hrows, Hr. by rewrite nth_middle.
  - rewrite (IH (pre ++ [r])); [|by rewrite <- app_assoc|done|done].
    rewrite length_app. simpl. by rewrite Nat.add_1_r.
Qed.

(** The product [M @ s] holds the sums [sum_j M[i][j] * s[j]], row by
    row. *)
Lemma expected_payoffs_sums M s :
  Forall (λ r, length r = ncols M) (rows M) → length s = ncols M →
  expected_payoffs M s = payoff_sums M s.
Proof.
  intros Hrect Hs. unfold expected_payoffs, payoff_sums, shape0.
  by apply (expected_payoffs_from M s (rows M) []).
Qed.
End Sums.

Section Ordered.
Context {R : Type} `{Scalar R}.

(** The order of the numbers: [<=] is transitive, and total on the numbers
    that are not NaN.  Both hold on float64 and in exact arithmetic. *)
Hypothesis fle_total : ∀ x y : R,
  isnan x = false → isnan y = false → fle x y = true ∨ fle y x = true.
Hypothesis fle_trans : ∀ x y z : R,
  fle x y = true → fle y z = true → fle x z = true.

Lemma argmax_from_first_maximum (l : list R) : ∀ pre mp k,
  Forall (λ x, isnan x = false) (pre ++ l) →
  pre !! k = Some mp →
  (∀ j y, pre !! j = Some y → fle y mp = true) →
  (∀ j y, j < k → pre !! j = Some y → fle mp y = false) →
  first_maximum (pre ++ l) (argmax_from mp k (length pre) l).
Proof using fle_total fle_trans.
  induction l as [|x l IH]; intros pre mp k Hnan Hk Hmax Hfirst; simpl.
  - rewrite app_nil_r. by exists mp.
  - assert (Hlen : length (pre ++ [x]) = S (length pre))
      by (rewrite length_app; simpl; lia).
    assert (Hkl : k < length pre) by (by eapply lookup_lt_Some).
    assert (Hx : isnan x = false).
    { rewrite Forall_app, Forall_cons in Hnan. tauto. }
    assert (Hmp : isnan mp = false).
    { rewrite Forall_app, Forall_lookup in Hnan. destruct Hnan as [Hpre _].
      by eapply Hpre. }
    rewrite (cons_middle x pre l), app_assoc in Hnan.
    destruct (fle x mp) eqn:Hle; simpl; [|rewrite Hx];
      rewrite (cons_middle x pre l), app_assoc, <- Hlen; apply IH; try done.
    + by rewrite lookup_app_l.
    + intros j y [Hj|[_ Hj]]%lookup_app_Some; [eauto|].
      destruct (j - length pre); [|done]. by injection Hj as <-.
    + intros j y Hjk Hj. rewrite lookup_app_l in Hj by lia. eauto.
    + by rewrite lookup_app_r, Nat.sub_diag by lia.
    + intros j y [Hj|[_ Hj]]%lookup_app_Some.
      * apply fle_trans with mp; [eauto|].
        destruct (fle_total x mp); congruence.
      * destruct (j - length pre); [|done]. injection Hj as <-.
        by destruct (fle_total x x).
    + intros j y Hjk Hj. rewrite lookup_app_l in Hj by lia.
      destruct (fle x y) eqn:Hxy; [|done].
      rewrite (fle_trans x y mp) in Hle; [done|done|eauto].
Qed.

Lemma np_argmax_first_maximum (v : list R) :
  0 < length v → Forall (λ x, isnan x = false) v →
  ∃ i, np_argmax v = Ok i ∧ first_maximum v i.
Proof using fle_total fle_trans.
  destruct v as [|x l]; simpl; [lia|]. intros _ Hnan.
  assert (Hx : isnan x = false) by (by apply Forall_cons in Hnan as [? _]).
  rewrite Hx. eexists; split; [done|].
  apply (argmax_from_first_maximum l [x] x 0); [done|done|..].
  - intros [|j] y; simpl; [|done]. intros [= <-]. by destruct (fle_total x x).
  - intros; lia.
Qed.

(** The index [best_response] returns is a first maximum of the sums
    [sum_j M[i][j] * s[j]], when none of them is NaN. *)
Lemma best_response_is_first_maximum (s : list R) (M : matrix R) i :
  Forall (λ r, length r = ncols M) (rows M) →
  Forall (λ x, isnan x = false) (payoff_sums M s) →
  best_response s M = Ok i → first_maximum (payoff_sums M s) i.
Proof using fle_total fle_trans.
  intros Hrect Hnan Hbr.
  pose proof Hbr as [Hcols Hi]%best_response_inv.
  rewrite <- (expected_payoffs_sums M s) in * by done.
  unfold best_response in Hbr. rewrite matmul_Ok in Hbr by done.
  simpl in Hbr. fold (expected_payoffs M s) in Hbr.
  destruct (np_argmax_first_maximum (expected_payoffs M s))
    as (i' & Hi' & Hmax); [|done|congruence].
  unfold expected_payoffs. rewrite length_map. unfold shape0 in Hi. lia.
Qed.

(** C2, amended: for a payoff matrix with at least one row and a strategy as
    long as the matrix has columns, when none of the expected payoffs
    [sum_j M[i][j] * s[j]] is NaN, [best_response] returns the smallest row
    index whose expected payoff is largest: no row has a larger one, and
    every row before it has a strictly smaller one. *)
Theorem best_response_smallest_maximizer (M : matrix R) (s : list R) :
  Forall (λ r, length r = ncols M) (rows M) →
  0 < shape0 M → length s = ncols M →
  Forall (λ x, isnan x = false) (payoff_sums M s) →
  ∃ i, best_response s M = Ok i
       ∧ i < shape0 M
       ∧ first_maximum (payoff_sums M s) i.
Proof using fle_total fle_trans.
  intros Hrect Hrows Hcols Hnan.
  destruct (best_response_Ok s M) as (i & Hi & Hlt); [done..|].
  exists i. split; [done|]. split; [done|].
  by apply best_response_is_first_maximum.
Qed.
End Ordered.

(** The two laws on float64, from the specification of the comparison. *)

Ltac compare_cases :=
  repeat match goal with
  | H : context [Z.compare ?a ?b] |- _ => destruct (Z.compare_spec a b)
  | |- context [Z.compare ?a ?b] => destruct (Z.compare_spec a b)
  | H : context [Pos.compare_cont Eq ?a ?b] |- _ =>
      change (Pos.compare_cont Eq a b) with (Pos.compare a b) in *;
      destruct (Pos.compare_spec a b)
  | |- context [Pos.compare_cont Eq ?a ?b] =>
      change (Pos.compare_cont Eq a b) with (Pos.compare a b) in *;
      destruct (Pos.compare_spec a b)
  end.

Lemma SFleb_trans (f g h : SpecFloat.spec_float) :
  SpecFloat.SFleb f g = true → SpecFloat.SFleb g h = true →
  SpecFloat.SFleb f h = true.
Proof.
  unfold SpecFloat.SFleb, SpecFloat.SFcompare.
  destruct f as [[]|[]| |[] m1 e1], g as [[]|[]| |[] m2 e2],
           h as [[]|[]| |[] m3 e3];
    try done; compare_cases; simpl in *; try done; subst; lia.
Qed.

Lemma SFleb_total (f g : SpecFloat.spec_float) :
  SpecFloat.SFeqb f f = true → SpecFloat.SFeqb g g = true →
  SpecFloat.SFleb f g = true ∨ SpecFloat.SFleb g f = true.
Proof.
  unfold SpecFloat.SFeqb, SpecFloat.SFleb, SpecFloat.SFcompare.
  destruct f as [[]|[]| |[] m1 e1], g as [[]|[]| |[] m2 e2];
    try done; try (by left); try (by right);
    intros _ _; compare_cases; simpl in *; subst;
    try (by left); try (by right); lia.
Qed.

Lemma float_le_trans (x y z : float) :
  fle x y = true → fle y z = true → fle x z = true.
Proof. simpl. rewrite !FloatAxioms.leb_spec. apply SFleb_trans. Qed.

Lemma float_le_total (x y : float) :
  isnan x = false → isnan y = false → fle x y = true ∨ fle y x = true.
Proof.
  simpl. unfold PrimFloat.is_nan.
  rewrite !negb_false_iff, !FloatAxioms.eqb_spec, !FloatAxioms.leb_spec.
  apply SFleb_total.
Qed.

(** The two laws in exact arithmetic. *)

Lemma Rational_total (x y : Q) :
  isnan x = false → isnan y = false → fle x y = true ∨ fle y x = true.
Proof.
  intros _ _. simpl. rewrite !Qle_bool_iff.
  destruct (Qlt_le_dec x y) as [Hlt|Hle]; [left | by right].
  by apply Qlt_le_weak.
Qed.

Lemma Rational_trans (x y z : Q) :
  fle x y = true → fle y z = true → fle x z = true.
Proof. simpl. rewrite !Qle_bool_iff. apply Qle_trans. Qed.

Lemma best_response_smallest_maximizer_witness :
  ∃ i, best_response Games.tie_strategy Games.tie_matrix = Ok i
       ∧ i < shape0 Games.tie_matrix
       ∧ first_maximum (payoff_sums Games.tie_matrix Games.tie_strategy) i.
Proof.
  apply (best_response_smallest_maximizer float_le_total float_le_trans).
  - repeat constructor.
  - unfold shape0; simpl. lia.
  - reflexivity.
  - vm_compute. repeat constructor.
Defined.

(** C2, as stated, fails: an expected payoff can be NaN.  For the strategy
    [[0.5, 0.5]] and a matrix whose rows 1 and 2 hold a NaN, row 0 has the
    expected payoff 0.5, which no row exceeds, and [best_response] returns
    index 1, whose expected payoff is NaN: row 0's payoff is not less than or
    equal to it, so index 1 is not the smallest index of a largest expected
    payoff. *)
Lemma nan_payoff_is_no_maximum :
  0 < shape0 Games.nan_matrix
  ∧ length [0.5; 0.5]%float = ncols Games.nan_matrix
  ∧ best_response [0.5; 0.5]%float Games.nan_matrix = Ok 1
  ∧ payoff_sum Games.nan_matrix [0.5; 0.5]%float 0 = 0.5%float
  ∧ isnan (payoff_sum Games.nan_matrix [0.5; 0.5]%float 1) = true
  ∧ forallb (λ y, negb (PrimFloat.ltb 0.5 y))
      (payoff_sums Games.nan_matrix [0.5; 0.5]%float) = true
  ∧ ¬ first_maximum (payoff_sums Games.nan_matrix [0.5; 0.5]%float) 1.
Proof.
  split; [unfold shape0; simpl; lia|].
  do 5 (split; [vm_compute; reflexivity|]).
  intros (x & Hx & Hmax & _).
  specialize (Hmax 0 0.5%float eq_refl).
  apply (f_equal (λ o, match o with
                       | Some y => fle 0.5%float y
                       | None => false
                       end)) in Hx.
  rewrite Hmax in Hx. vm_compute in Hx. discriminate.
Qed.

(** The same happens without a NaN among the inputs: with finite payoffs and
    a finite strategy the products can overflow to infinities of both signs,
    whose sum is NaN.  Row 0 has the expected payoff 20 here, and the index
    returned is 1. *)
Lemma finite_payoffs_overflow_to_nan :
  best_response [10; 10]%float Games.overflow_matrix = Ok 1
  ∧ payoff_sum Games.overflow_matrix [10; 10]%float 0 = 20%float
  ∧ isnan (payoff_sum Games.overflow_matrix [10; 10]%float 1) = true
  ∧ forallb (λ x, negb (isnan x) && negb (PrimFloat.is_infinity x))
      (concat (rows Games.overflow_matrix)) = true.
Proof. repeat split; vm_compute; reflexivity. Qed.

(** ** The stop decision *)

Section Stop.
Context {R : Type} `{Scalar R}.
Implicit Types (A B : matrix R) (st : strategies (R:=R)).

Lemma round_stop_iff A B tolerance st st' stopped :
  round A B tolerance st = Ok (st', stopped) →
  stopped = true ↔ allclose_holds tolerance st st'.
Proof.
  intros (_ & Hla & Hla' & _ & Hlb' & ->)%round_inv.
  unfold allclose_holds. rewrite andb_true_iff.
  rewrite forallb_zip_Forall2 by congruence.
  split.
  - intros [Ha Hb]. split; [done|].
    case_decide; [|done]. apply forallb_zip_Forall2; [congruence|done].
  - intros [Ha Hb]. split; [done|].
    pose proof (Forall2_length _ _ _ Hb) as Hlb.
    rewrite decide_True by congruence.
    by apply forallb_zip_Forall2.
Qed.

(** C3, amended: the loop is left at a round if and only if, for each
    player, every component of the strategy before the round is close to the
    component of the new strategy in the sense of [np.allclose] with its
    default relative tolerance: [|prev - new| <= tolerance + 1e-5 * |new|].
    The flag recorded for a round says whether the loop was left there: a
    round flagged true is the last one, and an execution that was not left
    that way ran all its rounds. *)
Theorem loop_stops_iff_allclose A B max_iterations tolerance e :
  run A B max_iterations tolerance = Ok e →
  every_round
    (λ prev new stopped, stopped = true ↔ allclose_holds tolerance prev new)
    (uniform (shape0 A), uniform (shape0 B)) (history e)
  ∧ left_loop max_iterations e.
Proof.
  intros He. split.
  - apply (every_round_impl
             (λ prev new c, round A B tolerance prev = Ok (new, c))).
    + intros prev new c. apply round_stop_iff.
    + by eapply execute_rounds.
  - by eapply execute_left_loop.
Qed.
End Stop.

Lemma loop_stops_iff_allclose_witness :
  every_round
    (λ prev new stopped,
       stopped = true ↔ allclose_holds Examples.default_tolerance prev new)
    (uniform 2, uniform 2)
    [(([0; 1], [1; 0]), false); (([0; 1], [1; 0]), true)]%float
  ∧ left_loop Examples.default_max_iterations
      (Execution [(([0; 1], [1; 0]), false); (([0; 1], [1; 0]), true)]%float
         Converged).
Proof.
  apply (loop_stops_iff_allclose
           Examples.payoff_matrix_a Examples.payoff_matrix_b
           Examples.default_max_iterations Examples.default_tolerance
           (Execution
              [(([0; 1], [1; 0]), false); (([0; 1], [1; 0]), true)]%float
              Converged)).
  vm_compute. reflexivity.
Defined.

(** C3, as stated, fails: with three actions and a tolerance of 0.66666 the
    loop is left in the first round, although a component of player A's
    strategy moved from 1/3 to 1, by more than the tolerance. *)
Lemma stop_with_difference_above_tolerance :
  run Examples.three_a Examples.three_b 1 Examples.loose_tolerance
  = Ok (Execution [(([1; 0; 0], [1; 0; 0]), true)]%float Converged)
  ∧ spec_converged Examples.loose_tolerance
      (uniform 3, uniform 3) ([1; 0; 0], [1; 0; 0])%float = false.
Proof. split; vm_compute; reflexivity. Qed.

(** ** Termination and shapes *)

Section Shapes.
Context {R : Type} `{Scalar R}.
Implicit Types (A B : matrix R).

Lemma run_Ok m n A B max_iterations tolerance :
  0 < m → 0 < n → has_shape m n A → has_shape n m B →
  ∃ e, run A B max_iterations tolerance = Ok e
       ∧ left_loop max_iterations e
       ∧ calculate_nash_equilibrium A B max_iterations tolerance
         = Ok (final (uniform m, uniform n) e)
       ∧ length (final (uniform m, uniform n) e).1 = m
       ∧ length (final (uniform m, uniform n) e).2 = n.
Proof.
  intros Hm Hn (HA0 & HA1 & _) (HB0 & HB1 & _).
  destruct (execute_Ok A B tolerance max_iterations
              (uniform (shape0 A), uniform (shape0 B))) as [e He];
    simpl; rewrite ?length_uniform; try congruence; try lia.
  exists e. split; [done|].
  split; [by eapply execute_left_loop|].
  rewrite calculate_final. unfold run. rewrite He. simpl.
  rewrite <- HA0, <- HB0. split; [done|].
  eapply final_length; [done|..]; simpl; by rewrite length_uniform.
Qed.

(** C4, amended: for two square payoff matrices of one size, with at least
    one action, and every iteration budget, the function raises nothing and
    returns after at most [max_iterations] rounds; the loop is left either by
    the convergence test of its last round or with the budget used up and no
    test passed. *)
Theorem square_games_terminate n A B max_iterations tolerance :
  0 < n → has_shape n n A → has_shape n n B →
  ∃ e, run A B max_iterations tolerance = Ok e
       ∧ left_loop max_iterations e
       ∧ calculate_nash_equilibrium A B max_iterations tolerance
         = Ok (final (uniform n, uniform n) e).
Proof.
  intros Hn HA HB.
  destruct (run_Ok n n A B max_iterations tolerance) as (e & ? & ? & ? & _);
    eauto.
Qed.

(** C10, amended: the function compares no shapes.  For an [m] by [n] matrix
    of player A and an [n] by [m] matrix of player B, with [m] and [n] at
    least 1, it raises nothing and returns strategies of lengths [m] and [n];
    when [m] and [n] differ, the shape test of [main] rejects the pair. *)
Theorem compatible_shapes_run m n A B max_iterations tolerance :
  0 < m → 0 < n → has_shape m n A → has_shape n m B →
  (∃ strategy_a strategy_b,
     calculate_nash_equilibrium A B max_iterations tolerance
     = Ok (strategy_a, strategy_b)
     ∧ length strategy_a = m ∧ length strategy_b = n)
  ∧ (m ≠ n → shapes_differ A B = true).
Proof.
  intros Hm Hn HA HB. split.
  - destruct (run_Ok m n A B max_iterations tolerance)
      as (e & _ & _ & Hc & Hla & Hlb); try done.
    destruct (final (uniform m, uniform n) e) as [sa sb]. eauto.
  - intros Hmn. destruct HA as (HA0 & HA1 & _), HB as (HB0 & HB1 & _).
    unfold shapes_differ. rewrite bool_decide_eq_false_2; [done|].
    intros [=]. congruence.
Qed.
End Shapes.

Lemma square_games_terminate_witness :
  ∃ e, run Examples.payoff_matrix_a Examples.payoff_matrix_b
         Examples.default_max_iterations Examples.default_tolerance = Ok e
       ∧ left_loop Examples.default_max_iterations e
       ∧ calculate_nash_equilibrium
           Examples.payoff_matrix_a Examples.payoff_matrix_b
           Examples.default_max_iterations Examples.default_tolerance
         = Ok (final (uniform 2, uniform 2) e).
Proof.
  apply (square_games_terminate 2).
  - lia.
  - repeat split; repeat constructor.
  - repeat split; repeat constructor.
Defined.

(** C4, as stated, fails: two matrices of one shape, two rows by three
    columns, pass the shape test of [main], and the function leaves its
    first round by the exception of the matrix product. *)
Lemma same_shape_raises :
  has_shape 2 3 Examples.wide_a ∧ has_shape 2 3 Examples.wide_b
  ∧ shapes_differ Examples.wide_a Examples.wide_b = false
  ∧ calculate_nash_equilibrium Examples.wide_a Examples.wide_b
      1 Examples.default_tolerance = Raise DimensionMismatch.
Proof.
  split; [repeat split; repeat constructor|].
  split; [repeat split; repeat constructor|].
  split; vm_compute; reflexivity.
Qed.

Lemma compatible_shapes_run_witness :
  (∃ strategy_a strategy_b,
     calculate_nash_equilibrium Examples.wide_a Examples.tall_b
       Examples.default_max_iterations Examples.default_tolerance
     = Ok (strategy_a, strategy_b)
     ∧ length strategy_a = 2 ∧ length strategy_b = 3)
  ∧ (2 ≠ 3 → shapes_differ Examples.wide_a Examples.tall_b = true).
Proof.
  apply compatible_shapes_run.
  - lia.
  - lia.
  - repeat split; repeat constructor.
  - repeat split; repeat constructor.
Defined.

(** C10, as stated, fails: for shapes 0 by 1 and 1 by 0 the function returns
    nothing; [np.argmax] raises on the empty product of the first round. *)
Lemma empty_matrices_raise :
  has_shape 0 1 Examples.empty_a ∧ has_shape 1 0 Examples.empty_b
  ∧ calculate_nash_equilibrium Examples.empty_a Examples.empty_b
      1 Examples.default_tolerance = Raise EmptyArgmax.
Proof.
  split; [repeat split; repeat constructor|].
  split; [repeat split; repeat constructor|].
  vm_compute; reflexivity.
Qed.

(** ** One-hot strategies and the order of the two updates *)

Section Rounds.
Context {R : Type} `{Scalar R}.
Implicit Types (A B : matrix R) (st : strategies (R:=R)) (e : execution (R:=R)).

Lemma round_one_hot A B tolerance st st' c :
  round A B tolerance st = Ok (st', c) → one_hot st'.1 ∧ one_hot st'.2.
Proof.
  intros ((best_a & best_b & Ha & -> & Hb & ->) & _)%round_inv.
  apply best_response_inv in Ha as [_ Ha], Hb as [_ Hb].
  split; by apply point_one_hot.
Qed.

Lemma history_one_hot A B tolerance max_iterations st e :
  execute A B tolerance max_iterations st = Ok e →
  Forall (λ p, one_hot p.1.1 ∧ one_hot p.1.2) (history e).
Proof.
  intros He.
  apply (every_round_Forall (λ new, one_hot new.1 ∧ one_hot new.2) st).
  apply (every_round_impl
           (λ prev new c, round A B tolerance prev = Ok (new, c)));
    [|by eapply execute_rounds].
  intros prev new c. apply round_one_hot.
Qed.

Lemma final_elem st e :
  history e ≠ [] → ∃ c, (final st e, c) ∈ history e.
Proof.
  intros Hne. unfold final.
  destruct (last (history e)) as [[st' c]|] eqn:E.
  - exists c. rewrite fmap_last, E. simpl.
    apply last_Some in E as [l' ->].
    rewrite elem_of_app, list_elem_of_singleton. by right.
  - by apply last_None in E.
Qed.

Lemma execute_history_nonempty A B tolerance n st e :
  execute A B tolerance (S n) st = Ok e → history e ≠ [].
Proof.
  simpl. destruct (round A B tolerance st) as [[st' [|]]|err]; simpl;
    [by intros [= <-] | | done].
  destruct (execute A B tolerance n st') as [e'|err]; simpl; [|done].
  by intros [= <-].
Qed.

Lemma uniform_replicate n :
  uniform n = replicate n (fdiv fone (of_count n)) :> list R.
Proof.
  unfold uniform, divide, np_ones. generalize (of_count n) as c. intros c.
  induction n as [|n IH]; simpl; [done | by rewrite IH].
Qed.

Section Distinct.
Hypothesis zero_one : (fzero : R) ≠ fone.

Lemma one_hot_uniform n : one_hot (uniform n : list R) → n = 1.
Proof using zero_one.
  rewrite uniform_replicate. intros (i & Hi & Hothers).
  apply lookup_replicate in Hi as [Hx Hin].
  destruct n as [|[|n]]; [lia | done | exfalso].
  apply zero_one. rewrite Hx at 1. symmetry.
  apply (Hothers (if decide (i = 0) then 1 else 0)).
  - case_decide; lia.
  - apply lookup_replicate. split; [done | case_decide; lia].
Qed.

Lemma one_hot_unique (v : list R) i j :
  one_hot v → v !! i = Some fone → v !! j = Some fone → i = j.
Proof using zero_one.
  intros (k & _ & Hothers) Hi Hj.
  destruct (decide (i = k)) as [->|Hik];
    [|by destruct zero_one; symmetry; eapply Hothers].
  destruct (decide (j = k)) as [->|Hjk]; [done|].
  by destruct zero_one; symmetry; eapply Hothers.
Qed.

(** C5: every strategy of every round is one-hot, and with a budget of at
    least one round each returned strategy is one-hot; it equals the uniform
    strategy of the initialization only when its player has exactly one
    action. *)
Theorem strategies_one_hot A B max_iterations tolerance e :
  run A B max_iterations tolerance = Ok e →
  Forall (λ p, one_hot p.1.1 ∧ one_hot p.1.2) (history e)
  ∧ (0 < max_iterations →
     ∀ strategy_a strategy_b,
       calculate_nash_equilibrium A B max_iterations tolerance
       = Ok (strategy_a, strategy_b) →
       (one_hot strategy_a ∧ one_hot strategy_b)
       ∧ (strategy_a = uniform (shape0 A) → shape0 A = 1)
       ∧ (strategy_b = uniform (shape0 B) → shape0 B = 1)).
Proof using zero_one.
  intros He. pose proof (history_one_hot _ _ _ _ _ _ He) as Hall.
  split; [done|]. intros Hpos sa sb Hc.
  destruct max_iterations as [|n]; [lia|].
  rewrite calculate_final, He in Hc. simpl in Hc. injection Hc as Hc.
  destruct (final_elem (uniform (shape0 A), uniform (shape0 B)) e)
    as [c Hin]; [by eapply execute_history_nonempty|].
  rewrite Hc in Hin. rewrite Forall_forall in Hall.
  destruct (Hall _ Hin) as [Ha Hb]; simpl in *.
  split; [done|]. split; intros ->; by apply one_hot_uniform.
Qed.
End Distinct.

(** C6: in every round player A's new strategy is the one-hot vector at the
    best response to player B's strategy of the round before, and player B's
    new strategy is the one-hot vector at the best response to that new
    strategy of player A. *)
Theorem B_answers_updated_A A B max_iterations tolerance e :
  run A B max_iterations tolerance = Ok e →
  every_round (λ prev new _, sequential_update A B prev new)
    (uniform (shape0 A), uniform (shape0 B)) (history e).
Proof.
  intros He.
  apply (every_round_impl
           (λ prev new c, round A B tolerance prev = Ok (new, c)));
    [|by eapply execute_rounds].
  by intros prev new c [? _]%round_inv.
Qed.

Lemma execute_step A B tolerance n st st' e :
  round A B tolerance st = Ok (st', false) →
  execute A B tolerance n st' = Ok e →
  execute A B tolerance (S n) st
  = Ok (Execution ((st', false) :: history e) (how e)).
Proof. intros Hr He. simpl. rewrite Hr. simpl. by rewrite He. Qed.
End Rounds.

Lemma strategies_one_hot_witness :
  Forall (λ p, one_hot p.1.1 ∧ one_hot p.1.2)
    [(([0; 1], [1; 0]), false); (([0; 1], [1; 0]), true)]%float
  ∧ (0 < Examples.default_max_iterations →
     ∀ strategy_a strategy_b,
       calculate_nash_equilibrium
         Examples.payoff_matrix_a Examples.payoff_matrix_b
         Examples.default_max_iterations Examples.default_tolerance
       = Ok (strategy_a, strategy_b) →
       (one_hot strategy_a ∧ one_hot strategy_b)
       ∧ (strategy_a = uniform (shape0 Examples.payoff_matrix_a)
          → shape0 Examples.payoff_matrix_a = 1)
       ∧ (strategy_b = uniform (shape0 Examples.payoff_matrix_b)
          → shape0 Examples.payoff_matrix_b = 1)).
Proof.
  apply (strategies_one_hot float_zero_one
           Examples.payoff_matrix_a Examples.payoff_matrix_b
           Examples.default_max_iterations Examples.default_tolerance
           (Execution
              [(([0; 1], [1; 0]), false); (([0; 1], [1; 0]), true)]%float
              Converged)).
  vm_compute. reflexivity.
Defined.

Lemma B_answers_updated_A_witness :
  every_round
    (λ prev new _,
       sequential_update Examples.pennies_a Examples.pennies_b prev new)
    (uniform 2, uniform 2)
    [(([1; 0], [0; 1]), false); (([0; 1], [1; 0]), false)]%float.
Proof.
  apply (B_answers_updated_A Examples.pennies_a Examples.pennies_b
           2 Examples.default_tolerance
           (Execution
              [(([1; 0], [0; 1]), false); (([0; 1], [1; 0]), false)]%float
              Exhausted)).
  vm_compute. reflexivity.
Defined.

(** In the first round of matching pennies the two readings differ: player
    B's best response to the strategy player A had before the round is
    index 0, and the round leaves player B on index 1. *)
Lemma pennies_first_round_is_sequential :
  best_response (uniform 2) Examples.pennies_b = Ok 0
  ∧ round Examples.pennies_a Examples.pennies_b Examples.default_tolerance
      (uniform 2, uniform 2)
    = Ok ((point 2 0, point 2 1), false).
Proof. split; vm_compute; reflexivity. Qed.

(** ** Matching pennies *)

Section Pennies.
Import Examples.

Lemma pennies_first_round :
  round pennies_a pennies_b default_tolerance (uniform 2, uniform 2)
  = Ok (pennies_round 1, false).
Proof. vm_compute. reflexivity. Qed.

Lemma pennies_next_round k :
  round pennies_a pennies_b default_tolerance (pennies_round k)
  = Ok (pennies_round (S k), false).
Proof.
  unfold pennies_round. rewrite Nat.odd_succ, <- Nat.negb_odd.
  destruct (Nat.odd k); vm_compute; reflexivity.
Qed.

Lemma pennies_execute n : ∀ k,
  execute pennies_a pennies_b default_tolerance n (pennies_round k)
  = Ok (Execution (map (λ j, (pennies_round j, false)) (seq (S k) n)) Exhausted).
Proof.
  induction n as [|n IH]; intros k; [done|].
  by rewrite (execute_step _ _ _ _ _ _ _ (pennies_next_round k) (IH (S k))).
Qed.

Lemma pennies_run n :
  run pennies_a pennies_b n default_tolerance
  = Ok (Execution (map (λ j, (pennies_round j, false)) (seq 1 n)) Exhausted).
Proof.
  destruct n as [|n]; [done|].
  exact (execute_step _ _ _ _ _ _ _ pennies_first_round (pennies_execute n 1)).
Qed.

Lemma pennies_final n :
  final (uniform 2, uniform 2)
    (Execution (map (λ j, (pennies_round j, false)) (seq 1 n)) Exhausted)
  = pennies_after n.
Proof.
  destruct n as [|n]; [vm_compute; reflexivity|].
  unfold final. cbn [history]. rewrite seq_S, map_app, fmap_app. simpl.
  by rewrite last_snoc.
Qed.

Lemma pennies_round_one_hot k :
  one_hot (pennies_round k).1 ∧ one_hot (pennies_round k).2.
Proof.
  unfold pennies_round. destruct (Nat.odd k); simpl; split.
  - exact (point_one_hot (R:=float) 2 0 ltac:(lia)).
  - exact (point_one_hot (R:=float) 2 1 ltac:(lia)).
  - exact (point_one_hot (R:=float) 2 1 ltac:(lia)).
  - exact (point_one_hot (R:=float) 2 0 ltac:(lia)).
Qed.

(** C9: on matching pennies, for every iteration budget, the convergence
    test passes in no round, the loop runs all [max_iterations] rounds and is
    left with the budget used up, and the function returns the pair of the
    last round, which is one-hot when at least one round ran. *)
Theorem matching_pennies_exhausts_budget (max_iterations : nat) :
  ∃ e, run pennies_a pennies_b max_iterations default_tolerance = Ok e
       ∧ how e = Exhausted
       ∧ length (history e) = max_iterations
       ∧ Forall (λ p, p.2 = false) (history e)
       ∧ calculate_nash_equilibrium pennies_a pennies_b
           max_iterations default_tolerance
         = Ok (pennies_after max_iterations)
       ∧ final (uniform 2, uniform 2) e = pennies_after max_iterations
       ∧ (0 < max_iterations →
          one_hot (pennies_after max_iterations).1
          ∧ one_hot (pennies_after max_iterations).2).
Proof.
  eexists. split; [apply pennies_run|]. cbn [how history].
  split; [done|].
  split; [by rewrite length_map, length_seq|].
  split; [by apply Forall_map, Forall_forall|].
  split; [by rewrite calculate_final, pennies_run; simpl; rewrite pennies_final|].
  split; [apply pennies_final|].
  intros Hpos. destruct max_iterations as [|n]; [lia|].
  apply pennies_round_one_hot.
Qed.
End Pennies.

(** ** Effects and determinism of the two functions *)

Section Effects.
Context {R : Type} `{Scalar R}.
Implicit Types (h : Heap.heap R) (v : list R) (M A B : matrix R).

Lemma best_response_cases h s m :
  Heap.best_response s m h
  = match h !! m, h !! s with
    | Some (Heap.Array2 M), Some (Heap.Vector v) =>
        match matmul M v with
        | Ok r => (np_argmax r, h ++ [Heap.Vector r])
        | Raise e => (Raise e, h)
        end
    | _, _ => (Raise NotAnArray, h)
    end.
Proof.
  unfold Heap.best_response, Heap.op_matmul.
  rewrite !py_bind_unfold. unfold Heap.load_matrix.
  destruct (h !! m) as [[vm|M]|]; [done| |done].
  rewrite py_bind_unfold. unfold Heap.load_vector at 1.
  destruct (h !! s) as [[v|Ms]|]; [|done|done].
  rewrite py_bind_unfold. unfold Heap.lift at 1.
  destruct (matmul M v) as [r|e]; [|done].
  unfold Heap.new, Heap.op_argmax. rewrite py_bind_unfold.
  unfold Heap.load_vector. by rewrite lookup_new.
Qed.

(** C7: in every store and for every two references, a call of
    [best_response] writes to no object of the store, so the strategy and the
    payoff matrix are as they were; and when the strategy has another length
    than the matrix has columns, the call raises the dimension-mismatch
    error of the matrix product and leaves the store as it was. *)
Theorem best_response_mismatch_and_no_side_effects h s m :
  let out := Heap.best_response s m h in
  Heap.unchanged h out.2
  ∧ out.2 !! s = h !! s
  ∧ out.2 !! m = h !! m
  ∧ (∀ v M, h !! s = Some (Heap.Vector v) → h !! m = Some (Heap.Array2 M) →
            length v ≠ ncols M → out = (Raise DimensionMismatch, h)).
Proof.
  cbv zeta. rewrite best_response_cases.
  destruct (h !! m) as [[vm|M]|] eqn:Hm;
    try (repeat split; [done..|]; by intros v' M').
  destruct (h !! s) as [[v|Ms]|] eqn:Hs;
    try (repeat split; [done..|]; by intros v' M').
  destruct (matmul M v) as [r|e] eqn:Hr; simpl.
  - split; [by apply unchanged_new|].
    split; [by rewrite (unchanged_lookup h (h ++ [Heap.Vector r]) s _
                          (unchanged_new h h _ (unchanged_refl h)) Hs)|].
    split; [by rewrite (unchanged_lookup h (h ++ [Heap.Vector r]) m _
                          (unchanged_new h h _ (unchanged_refl h)) Hm)|].
    intros v' M' [= <-] [= <-] Hne.
    apply matmul_inv in Hr as [? _]. congruence.
  - repeat split; [done..|].
    intros v' M' [= <-] [= <-] Hne.
    rewrite matmul_mismatch in Hr by congruence. by injection Hr as <-.
Qed.

(** C8: the value a call returns is determined by the contents of its
    arguments.  In any two stores, two calls of [best_response] on a strategy
    and a matrix with equal contents return the same index or raise the same
    exception, and two calls of [calculate_nash_equilibrium] on equal
    matrices with equal [max_iterations] and [tolerance] return arrays with
    equal contents or raise the same exception; no other object of the store
    has a part in it. *)
Theorem calls_are_deterministic h1 h2 :
  (∀ s1 m1 s2 m2 v M,
     h1 !! s1 = Some (Heap.Vector v) → h1 !! m1 = Some (Heap.Array2 M) →
     h2 !! s2 = Some (Heap.Vector v) → h2 !! m2 = Some (Heap.Array2 M) →
     (Heap.best_response s1 m1 h1).1 = (Heap.best_response s2 m2 h2).1
     ∧ (Heap.best_response s1 m1 h1).1 = best_response v M)
  ∧ (∀ pa1 pb1 pa2 pb2 A B max_iterations tolerance,
       h1 !! pa1 = Some (Heap.Array2 A) → h1 !! pb1 = Some (Heap.Array2 B) →
       h2 !! pa2 = Some (Heap.Array2 A) → h2 !! pb2 = Some (Heap.Array2 B) →
       Heap.observe
         (Heap.calculate_nash_equilibrium pa1 pb1 max_iterations tolerance h1)
       = Heap.observe
           (Heap.calculate_nash_equilibrium pa2 pb2 max_iterations tolerance h2)
       ∧ Heap.observe
           (Heap.calculate_nash_equilibrium pa1 pb1 max_iterations tolerance h1)
         = Heap.contents
             <$> calculate_nash_equilibrium A B max_iterations tolerance).
Proof.
  split.
  - intros s1 m1 s2 m2 v M Hs1 Hm1 Hs2 Hm2.
    destruct (best_response_spec h1 s1 m1 v M Hs1 Hm1) as (h1' & _ & ->).
    destruct (best_response_spec h2 s2 m2 v M Hs2 Hm2) as (h2' & _ & ->).
    done.
  - intros pa1 pb1 pa2 pb2 A B max_iterations tolerance Ha1 Hb1 Ha2 Hb2.
    destruct (calculate_refines h1 pa1 pb1 A B max_iterations tolerance Ha1 Hb1)
      as [_ ->].
    destruct (calculate_refines h2 pa2 pb2 A B max_iterations tolerance Ha2 Hb2)
      as [_ ->].
    done.
Qed.
End Effects.

Lemma best_response_mismatch_and_no_side_effects_witness :
  let out := Heap.best_response 3 0 Stores.first in
  Heap.unchanged Stores.first out.2
  ∧ out.2 !! 3 = Stores.first !! 3
  ∧ out.2 !! 0 = Stores.first !! 0
  ∧ out = (Raise DimensionMismatch, Stores.first).
Proof.
  pose proof (best_response_mismatch_and_no_side_effects Stores.first 3 0)
    as (Hu & Hs & Hm & Herr).
  split; [exact Hu|]. split; [exact Hs|]. split; [exact Hm|].
  apply (Herr [1; 0; 0]%float Examples.payoff_matrix_a);
    [reflexivity | reflexivity | simpl; lia].
Defined.

Lemma calls_are_deterministic_witness :
  (Heap.best_response 2 0 Stores.first).1
  = (Heap.best_response 1 4 Stores.second).1
  ∧ Heap.observe
      (Heap.calculate_nash_equilibrium 0 1
         Examples.default_max_iterations Examples.default_tolerance
         Stores.first)
    = Heap.observe
        (Heap.calculate_nash_equilibrium 4 2
           Examples.default_max_iterations Examples.default_tolerance
           Stores.second).
Proof.
  destruct (calls_are_deterministic Stores.first Stores.second) as [Hbr Hcalc].
  split.
  - apply (Hbr 2 0 1 4 [0.5; 0.5]%float Examples.payoff_matrix_a);
      reflexivity.
  - apply (Hcalc 0 1 4 2 Examples.payoff_matrix_a Examples.payoff_matrix_b);
      reflexivity.
Defined.

(** * Further properties *)

(** ** What the two functions raise *)

Section Errors.
Context {R : Type} `{Scalar R}.
Implicit Types (A B M : matrix R) (s : list R) (st : strategies (R:=R)).

(** X1: [best_response] has three outcomes.  It returns a row index of the
    matrix, and then the strategy is as long as the matrix has columns; or
    the lengths differ and the matrix product raises; or they agree, the
    matrix has no row, and [np.argmax] raises on the empty product. *)
Theorem best_response_outcome s M :
  match best_response s M with
  | Ok i => ncols M = length s ∧ i < shape0 M
  | Raise e =>
      (e = DimensionMismatch ∧ ncols M ≠ length s)
      ∨ (e = EmptyArgmax ∧ ncols M = length s ∧ shape0 M = 0)
  end.
Proof.
  destruct (decide (ncols M = length s)) as [Hc|Hc].
  - destruct (decide (shape0 M = 0)) as [Hr|Hr].
    + rewrite best_response_empty by done. by right.
    + destruct (best_response_Ok s M) as (i & -> & Hi); [done | lia | done].
  - rewrite best_response_mismatch by done. by left.
Qed.

Lemma iterate_first_round_raises A B tolerance n st e :
  round A B tolerance st = Raise e →
  iterate A B tolerance (S n) st = Raise e.
Proof. intros Hr. simpl. by rewrite Hr. Qed.

Lemma round_raises A B tolerance st :
  length st.2 = shape0 B →
  ∀ e, shape_error A B = Some e → round A B tolerance st = Raise e.
Proof.
  intros Hlb e. unfold shape_error, round.
  destruct (decide (ncols A = shape0 B)) as [HA|HA];
    [|intros [= <-]; rewrite best_response_mismatch; [done | congruence]].
  destruct (decide (shape0 A = 0)) as [HA0|HA0];
    [intros [= <-]; rewrite best_response_empty; [done | congruence | done]|].
  destruct (best_response_Ok st.2 A) as (best_a & -> & Hba);
    [congruence | lia |].
  rewrite result_bind_Ok, setitem_zeros, result_bind_Ok by done.
  fold (point (shape0 A) best_a).
  destruct (decide (ncols B = shape0 A)) as [HB|HB].
  - destruct (decide (shape0 B = 0)) as [HB0|HB0]; [|done].
    intros [= <-]. rewrite best_response_empty; [done | | done].
    by rewrite length_point.
  - intros [= <-]. rewrite best_response_mismatch; [done|].
    by rewrite length_point.
Qed.

Lemma calculate_by_shapes A B max_iterations tolerance :
  match shape_error A B with
  | Some e =>
      calculate_nash_equilibrium A B (S max_iterations) tolerance = Raise e
  | None =>
      ∃ strategy_a strategy_b,
        calculate_nash_equilibrium A B (S max_iterations) tolerance
        = Ok (strategy_a, strategy_b)
        ∧ length strategy_a = shape0 A ∧ length strategy_b = shape0 B
  end.
Proof.
  destruct (shape_error A B) as [e|] eqn:He.
  - apply iterate_first_round_raises, round_raises; [|done].
    simpl. by rewrite length_uniform.
  - unfold shape_error in He. repeat case_decide; try done.
    destruct (execute_Ok A B tolerance (S max_iterations)
                (uniform (shape0 A), uniform (shape0 B))) as [e Hex];
      simpl; rewrite ?length_uniform; try done; try lia.
    rewrite calculate_final. unfold run. rewrite Hex. simpl.
    destruct (final_length A B tolerance (S max_iterations) _ e Hex)
      as [Hla Hlb]; simpl; rewrite ?length_uniform; try done.
    destruct (final _ e) as [sa sb]. eauto.
Qed.

(** X2: The shapes of the two arrays decide whether
    [calculate_nash_equilibrium] raises.  With a budget of at least one
    round it raises the exception of [shape_error] in its first round, and
    when there is none it returns one strategy per player, as long as the
    player's matrix has rows.  With a budget of zero rounds it returns the
    two uniform strategies, whatever the shapes. *)
Theorem calculate_outcome A B max_iterations tolerance :
  calculate_nash_equilibrium A B 0 tolerance
  = Ok (uniform (shape0 A), uniform (shape0 B))
  ∧ match shape_error A B with
    | Some e =>
        calculate_nash_equilibrium A B (S max_iterations) tolerance = Raise e
    | None =>
        ∃ strategy_a strategy_b,
          calculate_nash_equilibrium A B (S max_iterations) tolerance
          = Ok (strategy_a, strategy_b)
          ∧ length strategy_a = shape0 A ∧ length strategy_b = shape0 B
    end.
Proof. split; [done | apply calculate_by_shapes]. Qed.
End Errors.

(** ** The iteration budget *)

Section Budget.
Context {R : Type} `{Scalar R}.
Implicit Types (A B : matrix R) (st : strategies (R:=R)) (e : execution (R:=R)).

Lemma execute_converged_at A B tolerance k : ∀ st e k',
  execute A B tolerance k st = Ok e → how e = Converged →
  length (history e) ≤ k' →
  execute A B tolerance k' st = Ok e.
Proof.
  induction k as [|k IH]; intros st e k'; simpl.
  - by intros [= <-].
  - destruct (round A B tolerance st) as [[st' [|]]|err] eqn:Hr; simpl;
      [ | | done].
    + intros [= <-] _ Hk. simpl in Hk. destruct k' as [|k']; [lia|]. simpl.
      by rewrite Hr.
    + destruct (execute A B tolerance k st') as [e'|err] eqn:He; simpl;
        [|done].
      intros [= <-] Hhow Hk. simpl in Hk. destruct k' as [|k']; [lia|].
      simpl. rewrite Hr; simpl. by rewrite (IH st' e' k') by (done || lia).
Qed.

(** X3: Once a budget is enough for the loop to converge, the budget plays no
    part: with every budget of at least as many rounds as the loop took, the
    execution is the same, round by round, and so are the strategies
    returned. *)
Theorem converged_budget_is_enough A B k k' tolerance e :
  run A B k tolerance = Ok e → how e = Converged →
  length (history e) ≤ k' →
  run A B k' tolerance = Ok e
  ∧ calculate_nash_equilibrium A B k' tolerance
    = calculate_nash_equilibrium A B k tolerance.
Proof.
  intros He Hhow Hk.
  assert (He' : run A B k' tolerance = Ok e)
    by (by eapply execute_converged_at).
  split; [done|]. by rewrite !calculate_final, He, He'.
Qed.

Lemma execute_truncate A B tolerance k : ∀ st e' k',
  k ≤ k' → execute A B tolerance k' st = Ok e' →
  ∃ e, execute A B tolerance k st = Ok e
       ∧ history e = take k (history e').
Proof.
  induction k as [|k IH]; intros st e' k' Hk; simpl.
  - intros _. eexists. split; [done|]. by rewrite take_0.
  - destruct k' as [|k']; [lia|]. simpl.
    destruct (round A B tolerance st) as [[st' [|]]|err] eqn:Hr; simpl;
      [ | | done].
    + intros [= <-]. eexists. split; [done|]. simpl. by rewrite take_nil.
    + destruct (execute A B tolerance k' st') as [e1|err] eqn:He; simpl;
        [|done].
      intros [= <-].
      destruct (IH st' e1 k') as (e & -> & Hh); [lia | done |].
      simpl. eexists. split; [done|]. simpl. by rewrite Hh.
Qed.

(** X4: A smaller budget only cuts the execution short: when the function
    returns with a budget, it returns with every smaller one, after the first
    rounds of the same history. *)
Theorem smaller_budget_truncates A B k k' tolerance e' :
  k ≤ k' → run A B k' tolerance = Ok e' →
  ∃ e, run A B k tolerance = Ok e
       ∧ history e = take k (history e')
       ∧ calculate_nash_equilibrium A B k tolerance
         = Ok (final (uniform (shape0 A), uniform (shape0 B)) e).
Proof.
  intros Hk He'.
  destruct (execute_truncate A B tolerance k _ e' k' Hk He') as (e & He & Hh).
  exists e. split; [done|]. split; [done|].
  rewrite calculate_final. unfold run. by rewrite He.
Qed.
End Budget.

(** ** Convergence and equilibrium *)

Section Points.
Context {R : Type} `{Scalar R}.
Implicit Types (A B : matrix R) (st : strategies (R:=R)) (e : execution (R:=R)).

Lemma point_lookup_eq n i : i < n → point n i !! i = Some (fone : R).
Proof.
  intros Hi. unfold point, np_zeros.
  apply list_lookup_insert_eq. by rewrite length_replicate.
Qed.

Lemma point_lookup_ne n i j :
  j ≠ i → j < n → point n i !! j = Some (fzero : R).
Proof.
  intros Hne Hj. unfold point, np_zeros.
  rewrite list_lookup_insert_ne by done. by apply lookup_replicate.
Qed.

Lemma point_entries n i :
  Forall (λ x : R, x = fzero ∨ x = fone) (point n i).
Proof.
  apply Forall_lookup. intros j x Hj.
  assert (j < n) by (apply lookup_lt_Some in Hj; by rewrite length_point in Hj).
  destruct (decide (j = i)) as [->|Hne].
  - rewrite point_lookup_eq in Hj by done. right. congruence.
  - rewrite point_lookup_ne in Hj by done. left. congruence.
Qed.

Lemma forallb_zip_diag (P : R → R → bool) (l : list R) :
  Forall (λ x, P x x = true) l → forallb (λ p, P p.1 p.2) (zip l l) = true.
Proof. induction 1 as [|x l Hx _ IH]; simpl; [done|]. by rewrite Hx, IH. Qed.

(** A round that starts from two one-hot strategies: where it leaves the
    players, and the value of its test. *)
Lemma round_from_points A B tolerance i j st' c :
  round A B tolerance (point (shape0 A) i, point (shape0 B) j) = Ok (st', c) →
  ∃ a b,
    a < shape0 A ∧ b < shape0 B
    ∧ st' = (point (shape0 A) a, point (shape0 B) b)
    ∧ c = forallb (λ p, isclose tolerance p.1 p.2)
            (zip (point (shape0 A) i) (point (shape0 A) a))
          && forallb (λ p, isclose tolerance p.1 p.2)
               (zip (point (shape0 B) j) (point (shape0 B) b)).
Proof.
  intros ((a & b & Ha & Hsa & Hb & Hsb) & _ & _ & _ & _ & ->)%round_inv.
  apply best_response_inv in Ha as [_ Ha], Hb as [_ Hb].
  exists a, b. destruct st' as [sa sb]; simpl in *; subst.
  rewrite decide_True by apply length_point. done.
Qed.

Lemma round_gives_points A B tolerance st st' c :
  round A B tolerance st = Ok (st', c) →
  ∃ a b, a < shape0 A ∧ b < shape0 B
         ∧ st' = (point (shape0 A) a, point (shape0 B) b).
Proof.
  intros ((a & b & Ha & Hsa & Hb & Hsb) & _)%round_inv.
  apply best_response_inv in Ha as [_ Ha], Hb as [_ Hb].
  exists a, b. destruct st' as [sa sb]; simpl in *; by subst.
Qed.

Lemma every_round_last_two
    (P : strategies (R:=R) → strategies → bool → Prop) l : ∀ st p c0 s c,
  every_round P st (l ++ [(p, c0); (s, c)]) → (∃ x, P x p c0) ∧ P p s c.
Proof.
  induction l as [|[st1 c1] l IH]; intros st p c0 s c; simpl.
  - intros (? & ? & _). eauto.
  - intros [_ Hrest]. by eapply IH.
Qed.

Lemma final_snoc st l (s : strategies (R:=R)) c how :
  final st (Execution (l ++ [(s, c)]) how) = s.
Proof.
  unfold final. cbn [history]. rewrite fmap_app.
  change (fst <$> [(s, c)]) with [s]. by rewrite last_snoc.
Qed.

Section Tolerance.
Variable tolerance : R.

(** The tolerance does not take a 1 for a 0. *)
Hypothesis far : isclose tolerance fone fzero = false.

Lemma allclose_points n i i' :
  i < n → i' < n →
  forallb (λ p, isclose tolerance p.1 p.2) (zip (point n i) (point n i'))
  = true →
  i = i'.
Proof using far.
  intros Hi Hi' Hall.
  apply forallb_zip_Forall2 in Hall; [|by rewrite !length_point].
  destruct (decide (i = i')) as [|Hne]; [done|exfalso].
  pose proof (Forall2_lookup_lr _ _ _ i _ _ Hall
                (point_lookup_eq n i Hi)
                (point_lookup_ne n i' i Hne Hi)) as Hclose.
  simpl in Hclose. congruence.
Qed.

Lemma converged_round_unchanged A B i j st' :
  i < shape0 A → j < shape0 B →
  round A B tolerance (point (shape0 A) i, point (shape0 B) j)
  = Ok (st', true) →
  st' = (point (shape0 A) i, point (shape0 B) j).
Proof using far.
  intros Hi Hj (a & b & Ha & Hb & -> & Hc)%round_from_points.
  symmetry in Hc. apply andb_true_iff in Hc as [Hca Hcb].
  apply allclose_points in Hca; [|done..].
  apply allclose_points in Hcb; [|done..]. by subst.
Qed.

Section Reflexive.
(** The tolerance takes a 0 for a 0 and a 1 for a 1. *)
Hypothesis close_zero : isclose tolerance fzero fzero = true.
Hypothesis close_one : isclose tolerance fone fone = true.

(** X5: From the second round on, the test of a round passes exactly when the
    round has left both strategies as they were: for a tolerance that tells 0
    from 1, a round that starts from two one-hot strategies stops the loop if
    and only if its two new strategies equal the old ones. *)
Theorem test_passes_iff_unchanged A B i j st' c :
  i < shape0 A → j < shape0 B →
  round A B tolerance (point (shape0 A) i, point (shape0 B) j) = Ok (st', c) →
  c = true ↔ st' = (point (shape0 A) i, point (shape0 B) j).
Proof using far close_zero close_one.
  intros Hi Hj Hr. split.
  - intros ->. by apply converged_round_unchanged.
  - intros ->.
    apply round_from_points in Hr as (a & b & Ha & Hb & [= Hia Hjb] & ->).
    rewrite <- Hia, <- Hjb.
    rewrite !forallb_zip_diag; [done|..];
      (eapply Forall_impl; [apply point_entries|]);
      by intros x [->| ->].
Qed.
End Reflexive.

Lemma converged_fixed A B max_iterations e :
  run A B max_iterations tolerance = Ok e →
  how e = Converged → 2 ≤ length (history e) →
  ∃ i j,
    i < shape0 A ∧ j < shape0 B
    ∧ calculate_nash_equilibrium A B max_iterations tolerance
      = Ok (point (shape0 A) i, point (shape0 B) j)
    ∧ round A B tolerance (point (shape0 A) i, point (shape0 B) j)
      = Ok ((point (shape0 A) i, point (shape0 B) j), true).
Proof using far.
  intros He Hhow Hlen.
  pose proof (execute_left_loop _ _ _ _ _ _ He) as [_ Hleft].
  rewrite Hhow in Hleft. destruct Hleft as (earlier & st & Hh & _).
  destruct earlier as [|[prev c0] earlier _] using rev_ind.
  { rewrite Hh in Hlen. simpl in Hlen. lia. }
  rewrite <- app_assoc in Hh. simpl in Hh.
  pose proof (execute_rounds _ _ _ _ _ _ He) as Hrounds.
  rewrite Hh in Hrounds.
  apply every_round_last_two in Hrounds as [[x Hprev] Hlast].
  apply round_gives_points in Hprev as (i & j & Hi & Hj & ->).
  pose proof (converged_round_unchanged _ _ _ _ _ Hi Hj Hlast) as ->.
  exists i, j. repeat split; [done..| |done].
  rewrite calculate_final, He. simpl. f_equal.
  destruct e as [hist how']. simpl in Hh. subst hist.
  by rewrite cons_middle, app_assoc, final_snoc.
Qed.

(** X6: When the loop is left by convergence after two rounds or more, the pair
    returned is a pair of mutual best responses: each strategy is the one-hot
    vector at the best response to the other one. *)
Theorem converged_pair_is_mutual_best_response A B max_iterations e :
  run A B max_iterations tolerance = Ok e →
  how e = Converged → 2 ≤ length (history e) →
  ∃ st, calculate_nash_equilibrium A B max_iterations tolerance = Ok st
        ∧ mutual_best_responses A B st.
Proof using far.
  intros He Hhow Hlen.
  destruct (converged_fixed A B max_iterations e He Hhow Hlen)
    as (i & j & _ & _ & Hc & Hr).
  eexists. split; [done|].
  by apply round_inv in Hr as [Hseq _].
Qed.
End Tolerance.
End Points.

(** ** One action for each player *)

Section SingleAction.
Context {R : Type} `{Scalar R}.
Variable tolerance : R.

(** One divided by the count 1 is one, and the tolerance takes a 1 for
    a 1. *)
Hypothesis whole_share : fdiv fone (of_count 1) = (fone : R).
Hypothesis close_one : isclose tolerance fone fone = true.

Lemma np_argmax_singleton (y : R) : np_argmax [y] = Ok 0.
Proof. simpl. by destruct (isnan y). Qed.

Lemma best_response_single_row (s : list R) (M : matrix R) :
  shape0 M = 1 → ncols M = length s → best_response s M = Ok 0.
Proof.
  intros Hrows Hcols. unfold best_response. rewrite matmul_Ok by done.
  destruct M as [[|r [|r' l]] c]; try done. apply np_argmax_singleton.
Qed.

(** X7: With one action for each player, whatever the payoffs are (a NaN
    included), the first round leaves both players on their only action, its
    test passes, and the function returns ([1], [1]) for every budget of at
    least one round. *)
Theorem single_action_converges_at_once (A B : matrix R) max_iterations :
  has_shape 1 1 A → has_shape 1 1 B →
  run A B (S max_iterations) tolerance
  = Ok (Execution [(([fone], [fone]), true)] Converged)
  ∧ calculate_nash_equilibrium A B (S max_iterations) tolerance
    = Ok ([fone], [fone]).
Proof using whole_share close_one.
  intros (HA0 & HA1 & _) (HB0 & HB1 & _).
  assert (Hround : round A B tolerance (uniform 1, uniform 1)
                   = Ok (([fone], [fone]), true)).
  { unfold round. cbn [fst snd].
    rewrite best_response_single_row by (by rewrite ?length_uniform).
    rewrite HA0, HB0. simpl.
    rewrite best_response_single_row by done. simpl.
    unfold np_allclose, uniform, divide, np_ones; simpl.
    by rewrite whole_share, close_one. }
  assert (Hrun : run A B (S max_iterations) tolerance
                 = Ok (Execution [(([fone], [fone]), true)] Converged)).
  { unfold run. rewrite HA0, HB0. simpl. by rewrite Hround. }
  split; [done|]. by rewrite calculate_final, Hrun.
Qed.
End SingleAction.

(** ** Equilibrium in payoffs *)

Section Equilibrium.
Context {R : Type} `{Scalar R}.

(** The order of the numbers, as float64 has it. *)
Hypothesis fle_total : ∀ x y : R,
  isnan x = false → isnan y = false → fle x y = true ∨ fle y x = true.
Hypothesis fle_trans : ∀ x y z : R,
  fle x y = true → fle y z = true → fle x z = true.
Variable tolerance : R.
Hypothesis far : isclose tolerance fone fzero = false.

(** X8: For two-dimensional arrays none of whose expected payoffs against a
    pure strategy of the other player is NaN, a pair the loop converged on
    after two rounds or more is a pure-strategy equilibrium of the game the
    two matrices describe, rows for the owner's actions: player A plays the
    first index with the largest expected payoff [sum_j A[i][j] * s_b[j]]
    against player B's strategy, and player B the first one with the largest
    expected payoff against player A's. *)
Theorem converged_pair_is_equilibrium (A B : matrix R) max_iterations e :
  Forall (λ r, length r = ncols A) (rows A) →
  Forall (λ r, length r = ncols B) (rows B) →
  (∀ b, b < shape0 B →
        Forall (λ x, isnan x = false) (payoff_sums A (point (shape0 B) b))) →
  (∀ a, a < shape0 A →
        Forall (λ x, isnan x = false) (payoff_sums B (point (shape0 A) a))) →
  run A B max_iterations tolerance = Ok e →
  how e = Converged → 2 ≤ length (history e) →
  ∃ a b,
    a < shape0 A ∧ b < shape0 B
    ∧ calculate_nash_equilibrium A B max_iterations tolerance
      = Ok (point (shape0 A) a, point (shape0 B) b)
    ∧ first_maximum (payoff_sums A (point (shape0 B) b)) a
    ∧ first_maximum (payoff_sums B (point (shape0 A) a)) b.
Proof using fle_total fle_trans far.
  intros HrectA HrectB HnanA HnanB He Hhow Hlen.
  destruct (converged_fixed tolerance far A B max_iterations e He Hhow Hlen)
    as (a & b & Hlta & Hltb & Hc & Hr).
  apply round_inv in Hr as [(a' & b' & Ha & Hsa & Hb & Hsb) _].
  simpl in *.
  pose proof Ha as [_ Hlta']%best_response_inv.
  pose proof Hb as [_ Hltb']%best_response_inv.
  apply (best_response_is_first_maximum fle_total fle_trans) in Ha;
    [|done|by apply HnanA].
  apply (best_response_is_first_maximum fle_total fle_trans) in Hb;
    [|done|by apply HnanB].
  rewrite Hsa, Hsb in Hc. rewrite Hsb in Ha. rewrite Hsa in Hb.
  by exists a', b'.
Qed.
End Equilibrium.

(** ** A NaN among the expected payoffs *)

Section NaN.
Context {R : Type} `{Scalar R}.

(** A NaN is not less than or equal to anything. *)
Hypothesis nan_le : ∀ x y : R, isnan x = true → fle x y = false.

Lemma argmax_from_first_nan (pre : list R) x rest : ∀ mp k i,
  Forall (λ y, isnan y = false) pre → isnan x = true →
  argmax_from mp k i (pre ++ x :: rest) = i + length pre.
Proof using nan_le.
  induction pre as [|y pre IH]; intros mp k i Hpre Hx; simpl.
  - rewrite nan_le, Hx by done. simpl. lia.
  - apply Forall_cons in Hpre as [Hy Hpre]. rewrite Hy.
    destruct (negb (fle y mp)); rewrite IH by done; lia.
Qed.

(** X9: When an expected payoff is NaN, [best_response] returns the index of the
    first row whose expected payoff is NaN, whatever the other payoffs
    are. *)
Theorem best_response_first_nan (s : list R) (M : matrix R) i x :
  length s = ncols M →
  expected_payoffs M s !! i = Some x → isnan x = true →
  (∀ k y, k < i → expected_payoffs M s !! k = Some y → isnan y = false) →
  best_response s M = Ok i.
Proof using nan_le.
  intros Hcols Hi Hx Hbefore. unfold best_response.
  rewrite matmul_Ok by done. simpl.
  fold (expected_payoffs M s).
  set (p := expected_payoffs M s) in *.
  assert (Hpre : Forall (λ y, isnan y = false) (take i p)).
  { apply Forall_lookup. intros k y Hk.
    apply lookup_take_Some in Hk as [Hk Hki]. by eapply Hbefore. }
  assert (Hlen : length (take i p) = i).
  { apply length_take_le. apply lookup_lt_Some in Hi. lia. }
  rewrite <- (take_drop_middle p i x Hi).
  destruct (take i p) as [|y pre]; simpl in *.
  - subst i. by rewrite Hx.
  - apply Forall_cons in Hpre as [-> Hpre].
    rewrite argmax_from_first_nan by done. f_equal. lia.
Qed.
End NaN.

Lemma float_nan_le (x y : float) : isnan x = true → fle x y = false.
Proof.
  simpl. unfold PrimFloat.is_nan.
  rewrite FloatAxioms.eqb_spec, FloatAxioms.leb_spec.
  destruct (FloatOps.Prim2SF x) as [s|s| |s m e]; simpl;
    [done | by destruct s | done |].
  unfold SpecFloat.SFeqb, SpecFloat.SFcompare.
  rewrite Z.compare_refl, Pos.compare_cont_refl. by destruct s.
Qed.

(** ** How long convergence can take *)

Section Cycles.
Context {R : Type} `{Scalar R}.
Implicit Types (A B : matrix R) (st : strategies (R:=R)) (e : execution (R:=R)).

(** The strategies a round leaves are decided by player B's strategy before
    the round; player A's strategy before the round is read by the test
    only. *)
Lemma round_same_b A B tolerance sa1 sa2 sb st1 c1 st2 c2 :
  round A B tolerance (sa1, sb) = Ok (st1, c1) →
  round A B tolerance (sa2, sb) = Ok (st2, c2) →
  st1 = st2.
Proof.
  intros [(a1 & b1 & Ha1 & Hsa1 & Hb1 & Hsb1) _]%round_inv
         [(a2 & b2 & Ha2 & Hsa2 & Hb2 & Hsb2) _]%round_inv.
  destruct st1 as [x1 y1], st2 as [x2 y2]; simpl in *.
  assert (a1 = a2) as -> by congruence. subst x1 x2.
  assert (b1 = b2) as -> by congruence. by subst.
Qed.

Lemma converged_unique A B tolerance k1 k2 st e1 e2 :
  execute A B tolerance k1 st = Ok e1 → how e1 = Converged →
  execute A B tolerance k2 st = Ok e2 → how e2 = Converged →
  e1 = e2.
Proof.
  intros H1 Hh1 H2 Hh2.
  pose proof (execute_left_loop _ _ _ _ _ _ H1) as [Hl1 _].
  pose proof (execute_left_loop _ _ _ _ _ _ H2) as [Hl2 _].
  pose proof (execute_converged_at _ _ _ _ _ _ (k1 `max` k2) H1 Hh1) as E1.
  pose proof (execute_converged_at _ _ _ _ _ _ (k1 `max` k2) H2 Hh2) as E2.
  rewrite E1 in E2 by lia. injection E2; [done | lia].
Qed.

Lemma execute_tail A B tolerance k st e s c l2 :
  execute A B tolerance k st = Ok e → how e = Converged →
  history e = (s, c) :: l2 → l2 ≠ [] →
  round A B tolerance st = Ok (s, false)
  ∧ ∃ k', execute A B tolerance k' s = Ok (Execution l2 Converged).
Proof.
  destruct k as [|k]; simpl; [by intros [= <-]|].
  destruct (round A B tolerance st) as [[st' [|]]|err]; simpl; [ | |done].
  - intros [= <-] _ [= <- <- <-]. done.
  - destruct (execute A B tolerance k st') as [[hist' how']|err] eqn:He;
      simpl; [|done].
    intros [= <-]; simpl. intros -> [= <- <- <-] _. eauto.
Qed.

Lemma execute_suffix A B tolerance l1 : ∀ k st e s c l2,
  execute A B tolerance k st = Ok e → how e = Converged →
  history e = l1 ++ (s, c) :: l2 → l2 ≠ [] →
  ∃ k', execute A B tolerance k' s = Ok (Execution l2 Converged).
Proof.
  induction l1 as [|[sx cx] l1 IH]; intros k st e s c l2 He Hhow Hh Hl2.
  - by destruct (execute_tail _ _ _ _ _ _ _ _ _ He Hhow Hh Hl2) as [_ ?].
  - destruct (execute_tail _ _ _ _ _ _ sx cx (l1 ++ (s, c) :: l2) He Hhow Hh)
      as [_ [k' He']]; [by destruct l1|].
    by eapply (IH k' sx _ s c l2 He').
Qed.

(** In an execution left by convergence, player B's strategy is never the
    same at two rounds among all but the last two. *)
Lemma converged_distinct A B tolerance k : ∀ st e,
  execute A B tolerance k st = Ok e → how e = Converged →
  NoDup ((λ p, p.1.2) <$> take (length (history e) - 2) (history e)).
Proof.
  induction k as [|k IH]; intros st e; simpl; [by intros [= <-]|].
  destruct (round A B tolerance st) as [[st' [|]]|err] eqn:Hr; simpl;
    [by intros [= <-] _; constructor | | done].
  destruct (execute A B tolerance k st') as [e'|err] eqn:He; simpl; [|done].
  intros [= <-] Hhow; simpl in *.
  destruct e' as [hist' how']; simpl in *. subst how'.
  destruct (decide (length hist' ≤ 1)) as [Hm|Hm].
  { replace (length hist' - 1) with 0 by lia. constructor. }
  replace (length hist' - 1) with (S (length hist' - 2)) by lia. simpl.
  apply NoDup_cons. split; [|by apply (IH st' _ He)].
  intros ([sj cj] & Hsj & Hin)%list_elem_of_fmap.
  apply list_elem_of_lookup in Hin as [q Hq].
  apply lookup_take_Some in Hq as [Hq Hqm]. simpl in Hsj.
  pose proof (length_drop hist' (S q)) as Hlen2.
  destruct (drop (S q) hist') as [|[sj1 cj1] l2'] eqn:Hdrop;
    [simpl in Hlen2; lia|].
  assert (Hsplit : hist' = take q hist' ++ (sj, cj) :: (sj1, cj1) :: l2').
  { rewrite <- Hdrop. symmetry. by apply take_drop_middle. }
  destruct (execute_suffix _ _ _ _ _ _ _ _ _ _ He eq_refl Hsplit) as [k1 Hk1];
    [done|].
  destruct (execute_tail _ _ _ _ _ _ _ _ _ Hk1 eq_refl eq_refl)
    as [Hrj [k2 Hk2]].
  { intros ->. simpl in Hlen2. lia. }
  destruct hist' as [|[s2 c2] t]; [simpl in Hm; lia|].
  destruct (execute_tail _ _ _ _ _ _ _ _ _ He eq_refl eq_refl)
    as [Hr1 [k3 Hk3]].
  { intros ->. simpl in Hm. lia. }
  destruct st' as [sa1 sb1], sj as [saj sbj]; simpl in Hsj. subst sbj.
  pose proof (round_same_b _ _ _ _ _ _ _ _ _ _ Hr1 Hrj) as ->.
  pose proof (converged_unique _ _ _ _ _ _ _ _ Hk3 eq_refl Hk2 eq_refl)
    as [= ->].
  simpl in Hlen2. lia.
Qed.

Lemma history_b_points A B tolerance k st e :
  execute A B tolerance k st = Ok e →
  Forall (λ p, p.1.2 ∈ point (shape0 B) <$> seq 0 (shape0 B)) (history e).
Proof.
  intros He.
  apply (every_round_Forall
           (λ new, new.2 ∈ point (shape0 B) <$> seq 0 (shape0 B)) st).
  apply (every_round_impl
           (λ prev new c, round A B tolerance prev = Ok (new, c)));
    [|by eapply execute_rounds].
  intros prev new c (a & b & Ha & Hb & ->)%round_gives_points. simpl.
  apply list_elem_of_fmap. exists b. split; [done|].
  apply elem_of_seq. lia.
Qed.

Lemma converged_length A B tolerance k st e :
  execute A B tolerance k st = Ok e → how e = Converged →
  length (history e) ≤ shape0 B + 2.
Proof.
  intros He Hhow.
  pose proof (converged_distinct _ _ _ _ _ _ He Hhow) as Hnd.
  pose proof (history_b_points _ _ _ _ _ _ He) as Hpts.
  apply NoDup_submseteq with (k := point (shape0 B) <$> seq 0 (shape0 B))
    in Hnd.
  - apply submseteq_length in Hnd.
    rewrite !length_fmap, length_seq, length_take in Hnd.
    unfold strategies in *. lia.
  - intros v ([s c] & -> & Hin)%list_elem_of_fmap.
    apply list_elem_of_lookup in Hin as [q Hq].
    apply lookup_take_Some in Hq as [Hq _].
    rewrite Forall_lookup in Hpts. apply (Hpts q _ Hq).
Qed.

(** X10: The loop converges within two rounds more than player B has actions, or
    not at all: an execution left by convergence has at most
    [shape0 B + 2] rounds, whatever the budget and the tolerance. *)
Theorem convergence_takes_few_rounds A B max_iterations tolerance e :
  run A B max_iterations tolerance = Ok e → how e = Converged →
  length (history e) ≤ shape0 B + 2.
Proof. apply converged_length. Qed.

(** X11: When a budget of [shape0 B + 2] rounds is used up without convergence,
    no budget brings convergence: every execution that returns is left with
    its budget used up. *)
Theorem no_convergence_after_few_rounds A B tolerance e :
  run A B (shape0 B + 2) tolerance = Ok e → how e = Exhausted →
  ∀ max_iterations e',
    run A B max_iterations tolerance = Ok e' → how e' = Exhausted.
Proof.
  intros He Hhow k e' He'.
  destruct (how e') eqn:Hhow'; [exfalso|done].
  pose proof (converged_length _ _ _ _ _ _ He' Hhow') as Hlen.
  pose proof (execute_converged_at _ _ _ _ _ _ _ He' Hhow' Hlen) as He2.
  unfold run in He. rewrite He2 in He. injection He as <-. congruence.
Qed.
End Cycles.

(** ** The arrays returned are new objects *)

Section Fresh.
Context {R : Type} `{Scalar R}.
Implicit Types (h : Heap.heap R) (v : list R) (M A B : matrix R).

Lemma unchanged_length h h' : Heap.unchanged h h' → length h ≤ length h'.
Proof. apply prefix_length. Qed.

Lemma length_new h (o : Heap.object R) : length (h ++ [o]) = S (length h).
Proof. rewrite length_app. simpl. lia. Qed.

(** The two references a round returns: allocated in the round, player A's
    array before player B's. *)
Lemma round_allocates h pa pb A B tolerance la lb va vb la' lb' c h' :
  h !! pa = Some (Heap.Array2 A) → h !! pb = Some (Heap.Array2 B) →
  h !! la = Some (Heap.Vector va) → h !! lb = Some (Heap.Vector vb) →
  Heap.round pa pb (shape0 A) (shape0 B) tolerance (la, lb) h
  = (Ok ((la', lb'), c), h') →
  length h ≤ la' ∧ la' < lb' ∧ lb' < length h'.
Proof.
  intros Hpa Hpb Hla Hlb. unfold Heap.round. cbn [fst snd].
  rewrite py_bind_unfold, (op_copy_spec h la va Hla).
  set (h1 := h ++ [Heap.Vector va]).
  assert (U1 : Heap.unchanged h h1) by (by apply unchanged_new).
  rewrite py_bind_unfold, (op_copy_spec h1 lb vb)
    by (by eapply unchanged_lookup).
  set (h2 := h1 ++ [Heap.Vector vb]).
  assert (U2 : Heap.unchanged h h2) by (by apply unchanged_new).
  rewrite py_bind_unfold.
  destruct (best_response_spec h2 lb pa vb A) as (h3 & U23 & ->);
    [by eapply unchanged_lookup | by eapply unchanged_lookup |].
  assert (U3 : Heap.unchanged h h3) by (by trans h2).
  destruct (best_response vb A) as [best_a|e]; [|done].
  rewrite py_bind_unfold, op_zeros_spec.
  rewrite py_bind_unfold, op_setitem_new.
  destruct (setitem (np_zeros (shape0 A)) best_a fone) as [va'|e]; [|done].
  set (h4 := h3 ++ [Heap.Vector va']).
  assert (U4 : Heap.unchanged h h4) by (by apply unchanged_new).
  rewrite py_bind_unfold.
  destruct (best_response_spec h4 (length h3) pb va' B) as (h5 & U45 & ->);
    [by apply lookup_new | by eapply unchanged_lookup |].
  destruct (best_response va' B) as [best_b|e]; [|done].
  rewrite py_bind_unfold, op_zeros_spec.
  rewrite py_bind_unfold, op_setitem_new.
  destruct (setitem (np_zeros (shape0 B)) best_b fone) as [vb'|e]; [|done].
  set (h6 := h5 ++ [Heap.Vector vb']).
  assert (Hprev_a : h6 !! length h = Some (Heap.Vector va)).
  { apply (unchanged_lookup h1); [|by apply lookup_new].
    apply unchanged_new. trans h2; [by apply unchanged_new|].
    trans h3; [done|]. trans h4; [by apply unchanged_new|done]. }
  assert (Hprev_b : h6 !! length h1 = Some (Heap.Vector vb)).
  { apply (unchanged_lookup h2); [|by apply lookup_new].
    apply unchanged_new. trans h3; [done|].
    trans h4; [by apply unchanged_new|done]. }
  assert (Hnew_a : h6 !! length h3 = Some (Heap.Vector va')).
  { apply (unchanged_lookup h4); [|by apply lookup_new].
    by apply unchanged_new. }
  assert (Hnew_b : h6 !! length h5 = Some (Heap.Vector vb'))
    by apply lookup_new.
  assert (Hlens : length h ≤ length h3 ∧ length h3 < length h5
                  ∧ length h5 < length h6).
  { apply unchanged_length in U3, U45.
    unfold h6, h4 in *. rewrite !length_new in *. lia. }
  rewrite py_bind_unfold, (op_allclose_spec h6 _ _ va va') by done.
  destruct (np_allclose va va' tolerance) as [close_a|e]; [|done].
  rewrite py_bind_unfold.
  destruct close_a.
  - rewrite (op_allclose_spec h6 _ _ vb vb') by done.
    destruct (np_allclose vb vb' tolerance) as [c'|e]; [|done].
    by intros [= <- <- <- <-].
  - by intros [= <- <- <- <-].
Qed.

Lemma iterate_allocates pa pb A B tolerance max_iterations :
  ∀ h la lb va vb la' lb' h',
  h !! pa = Some (Heap.Array2 A) → h !! pb = Some (Heap.Array2 B) →
  h !! la = Some (Heap.Vector va) → h !! lb = Some (Heap.Vector vb) →
  Heap.iterate pa pb (shape0 A) (shape0 B) tolerance max_iterations (la, lb) h
  = (Ok (la', lb'), h') →
  (la', lb') = (la, lb) ∨ (length h ≤ la' ∧ la' < lb' ∧ lb' < length h').
Proof.
  induction max_iterations as [|n IH];
    intros h la lb va vb la' lb' h' Hpa Hpb Hla Hlb.
  - intros [= <- <- <-]. by left.
  - cbn [Heap.iterate]. rewrite py_bind_unfold.
    destruct (round_refines h pa pb A B tolerance la lb va vb) as [U E];
      try done.
    pose proof (round_allocates h pa pb A B tolerance la lb va vb) as Hfresh.
    destruct (Heap.round pa pb (shape0 A) (shape0 B) tolerance (la, lb) h)
      as [[[[la1 lb1] c]|e] h1]; [|done].
    specialize (Hfresh la1 lb1 c h1 Hpa Hpb Hla Hlb eq_refl).
    cbn [fst snd] in *. unfold Heap.observe_round in E.
    destruct (round A B tolerance (va, vb)) as [[new c1]|e]; simpl in E;
      [|done].
    injection E as Hla1 Hlb1 _.
    destruct c.
    + intros [= <- <- <-]. by right.
    + intros Hit. right.
      pose proof (iterate_refines pa pb A B tolerance n h1 la1 lb1
                    new.1 new.2) as Hrest.
      rewrite Hit in Hrest.
      destruct Hrest as [U' _];
        [by eapply unchanged_lookup | by eapply unchanged_lookup
        | done | done |].
      apply unchanged_length in U'. simpl in U'.
      destruct (IH h1 la1 lb1 new.1 new.2 la' lb' h') as [[= -> ->]|Hnew];
        [by eapply unchanged_lookup | by eapply unchanged_lookup
        | done | done | done | lia | ].
      apply unchanged_length in U. lia.
Qed.

(** X12: The two arrays [calculate_nash_equilibrium] returns are objects it has
    allocated itself, and two different ones: neither is an object the caller
    had before the call (a payoff matrix among them), and the two strategies
    do not share an array.  Every object the caller had is left as it
    was. *)
Theorem results_are_new_arrays h pa pb A B max_iterations tolerance la lb h' :
  h !! pa = Some (Heap.Array2 A) → h !! pb = Some (Heap.Array2 B) →
  Heap.calculate_nash_equilibrium pa pb max_iterations tolerance h
  = (Ok (la, lb), h') →
  length h ≤ la ∧ la < lb ∧ lb < length h' ∧ Heap.unchanged h h'.
Proof.
  intros Hpa Hpb Hcall.
  pose proof (calculate_refines h pa pb A B max_iterations tolerance Hpa Hpb)
    as [U _].
  rewrite Hcall in U. simpl in U.
  revert Hcall. unfold Heap.calculate_nash_equilibrium.
  rewrite py_bind_unfold, (op_shape0_spec h pa A Hpa).
  rewrite py_bind_unfold, (op_shape0_spec h pb B Hpb).
  rewrite py_bind_unfold.
  change (Heap.op_ones (shape0 A) h)
    with (Ok (length h), h ++ [Heap.Vector (np_ones (shape0 A))]).
  cbv beta iota.
  set (h1 := h ++ [Heap.Vector (np_ones (shape0 A))]).
  rewrite py_bind_unfold, (op_divide_spec h1 _ (np_ones (shape0 A)))
    by apply lookup_new.
  fold (uniform (shape0 A)).
  set (h2 := h1 ++ [Heap.Vector (uniform (shape0 A))]).
  rewrite py_bind_unfold.
  change (Heap.op_ones (shape0 B) h2)
    with (Ok (length h2), h2 ++ [Heap.Vector (np_ones (shape0 B))]).
  cbv beta iota.
  set (h3 := h2 ++ [Heap.Vector (np_ones (shape0 B))]).
  rewrite py_bind_unfold, (op_divide_spec h3 _ (np_ones (shape0 B)))
    by apply lookup_new.
  fold (uniform (shape0 B)).
  set (h4 := h3 ++ [Heap.Vector (uniform (shape0 B))]).
  assert (U4 : Heap.unchanged h h4) by (by do 4 apply unchanged_new).
  assert (Hlens : length h1 = S (length h) ∧ length h3 = S (S (S (length h)))
                  ∧ length h4 = S (S (S (S (length h))))).
  { unfold h4, h3, h2, h1. rewrite !length_new. done. }
  intros Hit.
  pose proof (iterate_refines pa pb A B tolerance max_iterations h4
                (length h1) (length h3) (uniform (shape0 A))
                (uniform (shape0 B))) as Hrest.
  rewrite Hit in Hrest.
  destruct Hrest as [U' _].
  { by eapply unchanged_lookup. }
  { by eapply unchanged_lookup. }
  { apply (unchanged_lookup h2); [by do 2 apply unchanged_new|].
    apply lookup_new. }
  { apply lookup_new. }
  apply unchanged_length in U'. simpl in U'.
  destruct (iterate_allocates pa pb A B tolerance max_iterations h4
              (length h1) (length h3) (uniform (shape0 A))
              (uniform (shape0 B)) la lb h') as [[= -> ->]|Hnew]; try done.
  - by eapply unchanged_lookup.
  - by eapply unchanged_lookup.
  - apply (unchanged_lookup h2); [by do 2 apply unchanged_new|].
    apply lookup_new.
  - apply lookup_new.
  - split; [lia|]. split; [lia|]. split; [lia|done].
  - split; [lia|]. split; [lia|]. split; [lia|done].
Qed.
End Fresh.

(** ** The harness *)

Section Main.
Import String Harness.
Implicit Types (A B : matrix float).

Lemma shapes_agree A B :
  shapes_differ A B = false → shape0 A = shape0 B ∧ ncols A = ncols B.
Proof.
  unfold shapes_differ. intros Hs%negb_false_iff.
  by apply bool_decide_eq_true in Hs as [= ? ?].
Qed.

Lemma main_with_by_shapes A B :
  shapes_differ A B = false →
  match shape_error A B with
  | Some e => is_ValueError e = true
              ∧ main_with A B = ([Error (FromNumPy e)], None)
  | None =>
      ∃ strategy_a strategy_b,
        calculate_nash_equilibrium A B
          Examples.default_max_iterations Examples.default_tolerance
        = Ok (strategy_a, strategy_b)
        ∧ main_with A B
          = ([Text "Nash Equilibrium Strategies:";
              Labelled "Player A's Strategy:" strategy_a;
              Labelled "Player B's Strategy:" strategy_b], None)
  end.
Proof.
  intros Hs. unfold main_with, try_body. rewrite Hs.
  pose proof (calculate_by_shapes A B 999 Examples.default_tolerance) as Hc.
  change (S 999) with Examples.default_max_iterations in Hc.
  destruct (shape_error A B) as [e|] eqn:He.
  - rewrite Hc. unfold shape_error in He.
    repeat case_decide; try discriminate; injection He as <-; done.
  - destruct Hc as (sa & sb & -> & _). eauto.
Qed.

(** X13: No exception leaves the harness, whatever the two two-dimensional
    float arrays are: every exception the call can raise on two-dimensional
    arrays is a [ValueError], which the harness catches and prints.  (Arrays
    of other dimensions are outside the model: [.shape[0]] of a
    zero-dimensional array raises an [IndexError].) *)
Theorem main_with_catches_every_exception A B : (main_with A B).2 = None.
Proof.
  destruct (shapes_differ A B) eqn:Hs.
  - unfold main_with, try_body. by rewrite Hs.
  - pose proof (main_with_by_shapes A B Hs) as Hm.
    destruct (shape_error A B) as [e|].
    + by destruct Hm as [_ ->].
    + by destruct Hm as (sa & sb & _ & ->).
Qed.

(** X14: What the harness prints.  For two arrays of different shapes, the one
    line of its own error.  For two arrays of one shape: the header and the
    two strategies when the arrays are square with at least one row; the
    error of the matrix product when they are not square; the error of
    [np.argmax] when they are square without rows. *)
Theorem main_with_prints A B :
  (shapes_differ A B = true →
   (main_with A B).1
   = [Error (ValueError "Payoff matrices must have the same dimensions.")])
  ∧ (shapes_differ A B = false → ncols A ≠ shape0 A →
     (main_with A B).1 = [Error (FromNumPy DimensionMismatch)])
  ∧ (shapes_differ A B = false → ncols A = shape0 A → shape0 A = 0 →
     (main_with A B).1 = [Error (FromNumPy EmptyArgmax)])
  ∧ (shapes_differ A B = false → ncols A = shape0 A → 0 < shape0 A →
     ∃ strategy_a strategy_b,
       calculate_nash_equilibrium A B
         Examples.default_max_iterations Examples.default_tolerance
       = Ok (strategy_a, strategy_b)
       ∧ (main_with A B).1
         = [Text "Nash Equilibrium Strategies:";
            Labelled "Player A's Strategy:" strategy_a;
            Labelled "Player B's Strategy:" strategy_b]).
Proof.
  split; [|split; [|split]].
  - intros Hs. unfold main_with, try_body. by rewrite Hs.
  - intros Hs Hsq. pose proof (main_with_by_shapes A B Hs) as Hm.
    apply shapes_agree in Hs as [Hr Hc]. unfold shape_error in Hm.
    rewrite decide_False in Hm by lia. by destruct Hm as [_ ->].
  - intros Hs Hsq Hz. pose proof (main_with_by_shapes A B Hs) as Hm.
    apply shapes_agree in Hs as [Hr Hc]. unfold shape_error in Hm.
    rewrite decide_True in Hm by lia. rewrite decide_True in Hm by done.
    by destruct Hm as [_ ->].
  - intros Hs Hsq Hpos. pose proof (main_with_by_shapes A B Hs) as Hm.
    apply shapes_agree in Hs as [Hr Hc]. unfold shape_error in Hm.
    rewrite decide_True in Hm by lia. rewrite decide_False in Hm by lia.
    rewrite decide_True in Hm by lia. rewrite decide_False in Hm by lia.
    destruct Hm as (sa & sb & Hcalc & ->). eauto.
Qed.
End Main.

(** ** An equilibrium stops the loop; the shape of every strategy *)

Section FixedPoint.
Context {R : Type} `{Scalar R}.
Implicit Types (A B : matrix R) (st : strategies (R:=R)) (e : execution (R:=R)).
Variable tolerance : R.
Hypothesis close_zero : isclose tolerance fzero fzero = true.
Hypothesis close_one : isclose tolerance fone fone = true.

(** X15: A pair of mutual best responses is a fixed point of the round, and the
    round that starts from it stops the loop: it leaves both strategies as
    they are and its test passes. *)
Theorem equilibrium_stops_loop A B st :
  mutual_best_responses A B st → round A B tolerance st = Ok (st, true).
Proof using close_zero close_one.
  intros (a & b & Ha & Hsa & Hb & Hsb). destruct st as [sa sb]; simpl in *.
  pose proof Ha as [_ Hba]%best_response_inv.
  pose proof Hb as [_ Hbb]%best_response_inv.
  unfold round. cbn [fst snd].
  rewrite Ha, result_bind_Ok, setitem_zeros, result_bind_Ok by done.
  fold (point (shape0 A) a). rewrite <- Hsa.
  rewrite Hb, result_bind_Ok, setitem_zeros, result_bind_Ok by done.
  fold (point (shape0 B) b). rewrite <- Hsb.
  rewrite !np_allclose_Ok by done.
  rewrite !forallb_zip_diag; [done|..]; subst sa sb;
    (eapply Forall_impl; [apply point_entries|]);
    by intros x [->| ->].
Qed.
End FixedPoint.

Section Canonical.
Context {R : Type} `{Scalar R}.
Implicit Types (A B : matrix R) (e : execution (R:=R)).

(** X16: After every round each player's strategy is a one-hot array as long as
    the player's matrix has rows, with its 1 at a row index of that
    matrix. *)
Theorem rounds_leave_points A B max_iterations tolerance e :
  run A B max_iterations tolerance = Ok e →
  Forall (λ p, ∃ a b, a < shape0 A ∧ b < shape0 B
                      ∧ p.1 = (point (shape0 A) a, point (shape0 B) b)
                      ∧ length p.1.1 = shape0 A ∧ length p.1.2 = shape0 B)
    (history e).
Proof.
  intros He.
  apply (every_round_Forall
           (λ new, ∃ a b, a < shape0 A ∧ b < shape0 B
                          ∧ new = (point (shape0 A) a, point (shape0 B) b)
                          ∧ length new.1 = shape0 A
                          ∧ length new.2 = shape0 B)
           (uniform (shape0 A), uniform (shape0 B))).
  apply (every_round_impl
           (λ prev new c, round A B tolerance prev = Ok (new, c)));
    [|by eapply execute_rounds].
  intros prev new c (a & b & Ha & Hb & ->)%round_gives_points.
  exists a, b. simpl. by rewrite !length_point.
Qed.
End Canonical.

(** ** The properties at the arguments of [main] and on other games *)

Section Instances.
Import Examples.

Lemma default_tolerance_far : isclose default_tolerance fone fzero = false.
Proof. vm_compute. reflexivity. Qed.

Lemma default_tolerance_close_zero :
  isclose default_tolerance fzero fzero = true.
Proof. vm_compute. reflexivity. Qed.

Lemma default_tolerance_close_one :
  isclose default_tolerance fone fone = true.
Proof. vm_compute. reflexivity. Qed.

Lemma float_whole_share : fdiv fone (of_count 1) = (fone : float).
Proof. vm_compute. reflexivity. Qed.

Lemma main_run :
  run payoff_matrix_a payoff_matrix_b default_max_iterations default_tolerance
  = Ok Games.main_execution.
Proof. vm_compute. reflexivity. Qed.

Lemma converged_budget_is_enough_witness :
  run payoff_matrix_a payoff_matrix_b 5 default_tolerance
  = Ok Games.main_execution
  ∧ calculate_nash_equilibrium payoff_matrix_a payoff_matrix_b 5
      default_tolerance
    = calculate_nash_equilibrium payoff_matrix_a payoff_matrix_b
        default_max_iterations default_tolerance.
Proof.
  apply (converged_budget_is_enough payoff_matrix_a payoff_matrix_b
           default_max_iterations 5 default_tolerance Games.main_execution).
  - vm_compute. reflexivity.
  - reflexivity.
  - simpl. lia.
Defined.

Lemma smaller_budget_truncates_witness :
  ∃ e, run payoff_matrix_a payoff_matrix_b 1 default_tolerance = Ok e
       ∧ history e = take 1 (history Games.main_execution)
       ∧ calculate_nash_equilibrium payoff_matrix_a payoff_matrix_b 1
           default_tolerance
         = Ok (final (uniform (shape0 payoff_matrix_a),
                      uniform (shape0 payoff_matrix_b)) e).
Proof.
  apply (smaller_budget_truncates payoff_matrix_a payoff_matrix_b
           1 default_max_iterations default_tolerance Games.main_execution).
  - unfold default_max_iterations. lia.
  - vm_compute. reflexivity.
Defined.

Lemma test_passes_iff_unchanged_witness :
  true = true
  ↔ (point (R:=float) 2 1, point (R:=float) 2 0)
    = (point (shape0 payoff_matrix_a) 1, point (shape0 payoff_matrix_b) 0).
Proof.
  apply (test_passes_iff_unchanged default_tolerance
           default_tolerance_far default_tolerance_close_zero
           default_tolerance_close_one
           payoff_matrix_a payoff_matrix_b 1 0 (point (R:=float) 2 1, point (R:=float) 2 0) true).
  - unfold shape0; simpl. lia.
  - unfold shape0; simpl. lia.
  - vm_compute. reflexivity.
Defined.

Lemma converged_pair_is_mutual_best_response_witness :
  ∃ st, calculate_nash_equilibrium payoff_matrix_a payoff_matrix_b
          default_max_iterations default_tolerance = Ok st
        ∧ mutual_best_responses payoff_matrix_a payoff_matrix_b st.
Proof.
  apply (converged_pair_is_mutual_best_response default_tolerance
           default_tolerance_far payoff_matrix_a payoff_matrix_b
           default_max_iterations Games.main_execution).
  - vm_compute. reflexivity.
  - reflexivity.
  - simpl. lia.
Defined.

Lemma converged_pair_is_equilibrium_witness :
  ∃ a b,
    a < shape0 payoff_matrix_a ∧ b < shape0 payoff_matrix_b
    ∧ calculate_nash_equilibrium payoff_matrix_a payoff_matrix_b
        default_max_iterations default_tolerance
      = Ok (point (shape0 payoff_matrix_a) a, point (shape0 payoff_matrix_b) b)
    ∧ first_maximum
        (payoff_sums payoff_matrix_a (point (shape0 payoff_matrix_b) b)) a
    ∧ first_maximum
        (payoff_sums payoff_matrix_b (point (shape0 payoff_matrix_a) a)) b.
Proof.
  apply (converged_pair_is_equilibrium float_le_total float_le_trans
           default_tolerance default_tolerance_far
           payoff_matrix_a payoff_matrix_b default_max_iterations
           Games.main_execution).
  - repeat constructor.
  - repeat constructor.
  - intros [|[|b]] Hb; [vm_compute; repeat constructor..|].
    unfold shape0 in Hb; simpl in Hb; lia.
  - intros [|[|a]] Ha; [vm_compute; repeat constructor..|].
    unfold shape0 in Ha; simpl in Ha; lia.
  - vm_compute. reflexivity.
  - reflexivity.
  - simpl. lia.
Defined.

Lemma single_action_converges_at_once_witness :
  run Games.single_a Games.single_b 1000 default_tolerance
  = Ok (Execution [(([fone], [fone]), true)] Converged)
  ∧ calculate_nash_equilibrium Games.single_a Games.single_b 1000
      default_tolerance
    = Ok ([fone], [fone]).
Proof.
  apply (single_action_converges_at_once default_tolerance
           float_whole_share default_tolerance_close_one
           Games.single_a Games.single_b 999).
  - repeat split; repeat constructor.
  - repeat split; repeat constructor.
Defined.

Lemma best_response_first_nan_witness :
  best_response [0.5; 0.5]%float Games.nan_matrix = Ok 1.
Proof.
  apply (best_response_first_nan float_nan_le
           [0.5; 0.5]%float Games.nan_matrix 1 nan).
  - reflexivity.
  - vm_compute. reflexivity.
  - vm_compute. reflexivity.
  - intros [|k] y Hk; [|lia]. intros [= <-]. vm_compute. reflexivity.
Defined.

Lemma convergence_takes_few_rounds_witness :
  length (history Games.main_execution) ≤ shape0 payoff_matrix_b + 2.
Proof.
  apply (convergence_takes_few_rounds payoff_matrix_a payoff_matrix_b
           default_max_iterations default_tolerance Games.main_execution).
  - vm_compute. reflexivity.
  - reflexivity.
Defined.

Lemma no_convergence_after_few_rounds_witness :
  ∃ e', run pennies_a pennies_b 7 default_tolerance = Ok e'
        ∧ how e' = Exhausted.
Proof.
  eexists. split; [exact (pennies_run 7)|].
  apply (no_convergence_after_few_rounds pennies_a pennies_b
           default_tolerance _ (pennies_run 4) eq_refl 7 _ (pennies_run 7)).
Defined.

Lemma results_are_new_arrays_witness :
  let out := Heap.calculate_nash_equilibrium 0 1
               default_max_iterations default_tolerance Stores.first in
  length Stores.first ≤ 17 ∧ 17 < 19 ∧ 19 < length out.2
  ∧ Heap.unchanged Stores.first out.2.
Proof.
  apply (results_are_new_arrays Stores.first 0 1
           payoff_matrix_a payoff_matrix_b
           default_max_iterations default_tolerance 17 19).
  - reflexivity.
  - reflexivity.
  - vm_compute. reflexivity.
Defined.

Lemma equilibrium_stops_loop_witness :
  round payoff_matrix_a payoff_matrix_b default_tolerance
    ([0; 1], [1; 0])%float
  = Ok (([0; 1], [1; 0])%float, true).
Proof.
  apply (equilibrium_stops_loop default_tolerance
           default_tolerance_close_zero default_tolerance_close_one
           payoff_matrix_a payoff_matrix_b ([0; 1], [1; 0])%float).
  exists 1, 0. repeat split; vm_compute; reflexivity.
Defined.

Lemma rounds_leave_points_witness :
  Forall (λ p, ∃ a b, a < shape0 payoff_matrix_a ∧ b < shape0 payoff_matrix_b
                      ∧ p.1 = (point (shape0 payoff_matrix_a) a,
                               point (shape0 payoff_matrix_b) b)
                      ∧ length p.1.1 = shape0 payoff_matrix_a
                      ∧ length p.1.2 = shape0 payoff_matrix_b)
    (history Games.main_execution).
Proof.
  apply (rounds_leave_points payoff_matrix_a payoff_matrix_b
           default_max_iterations default_tolerance Games.main_execution).
  vm_compute. reflexivity.
Defined.
End Instances.
